(** * Vulkan delegate header and view-elision: a shallow embedding

    The first part embeds [VulkanDelegateHeader] of
    [backends/vulkan/serialization/vulkan_graph_serialize.py]: the
    30-byte framing header of a Vulkan delegate blob, its parser
    [from_bytes], its validity check [is_valid] and its writer
    [to_bytes].  Python integers are unbounded, so the four fields are
    [Z]; [bytes] objects are [list byte]; a raised exception is the
    [Raise] branch of [result]. *)

From Stdlib Require Import ZArith Lia.
From Stdlib Require Import Strings.Byte.
From stdpp Require Import base list strings gmap.

Local Open Scope Z_scope.

(** ** Python exceptions and results *)

Inductive exn : Type :=
| ValueError_length (got : nat)            (* "Expected header to be 30 bytes, but got {len(data)} bytes." *)
| ValueError_magic (got : list byte)       (* "Expected magic bytes to be b'VH00', but got {magic_b}." *)
| ValueError_header_length (got : Z)       (* "Expected header to be 30 bytes, but got {length} bytes." *)
| ValueError_invalid                       (* "VulkanDelegateHeader instance contains invalid values" *)
| OverflowError_negative                   (* "can't convert negative int to unsigned" *)
| OverflowError_too_big                    (* "int too big to convert" *)
| AssertionError.

Inductive result (A : Type) : Type :=
| Ok (a : A)
| Raise (e : exn).
Arguments Ok {A} a.
Arguments Raise {A} e.

Definition bind {A B : Type} (r : result A) (k : A -> result B) : result B :=
  match r with
  | Ok a => k a
  | Raise e => Raise e
  end.

Notation "x <-! r ; k" := (bind r (fun x => k))
  (at level 100, r at next level, right associativity).

Definition is_overflow (e : exn) : bool :=
  match e with
  | OverflowError_negative | OverflowError_too_big => true
  | _ => false
  end.

(** ** Bytes *)

Global Instance byte_eq_decision : EqDecision byte := Byte.byte_eq_dec.

Definition byte_to_Z (b : byte) : Z := Z.of_N (Byte.to_N b).

Definition byte_of_Z (z : Z) : byte :=
  match Byte.of_N (Z.to_N z) with
  | Some b => b
  | None => x00
  end.

(** [data[start:stop]] for [0 <= start <= stop]: Python clamps the
    slice to the object, it never raises. *)
Definition py_slice (start stop : nat) (data : list byte) : list byte :=
  take (stop - start) (drop start data).

(** [int.from_bytes(bs, byteorder="little")], unsigned. *)
Fixpoint int_from_bytes_little (bs : list byte) : Z :=
  match bs with
  | [] => 0
  | b :: rest => byte_to_Z b + 256 * int_from_bytes_little rest
  end.

(** The [len] low base-256 digits of [n], least significant first. *)
Fixpoint le_digits (len : nat) (n : Z) : list byte :=
  match len with
  | O => []
  | S k => byte_of_Z (n mod 256) :: le_digits k (n / 256)
  end.

(** [n.to_bytes(len, byteorder="little")], unsigned: raises
    [OverflowError] on a negative [n] and on an [n] that needs more than
    [len] bytes. *)
Definition int_to_bytes_little (n : Z) (len : nat) : result (list byte) :=
  if n <? 0 then Raise OverflowError_negative
  else if 256 ^ Z.of_nat len <=? n then Raise OverflowError_too_big
  else Ok (le_digits len n).

(** ** The header *)

Module VulkanDelegateHeader.

(* Byte region of each component, as [slice(start, stop)]. *)
Definition MAGIC_IX : nat * nat := (4, 8)%nat.
Definition HEADER_SIZE_IX : nat * nat := (8, 10)%nat.
Definition FLATBUFFER_OFFSET_IX : nat * nat := (10, 14)%nat.
Definition FLATBUFFER_SIZE_IX : nat * nat := (14, 18)%nat.
Definition BYTES_OFFSET_IX : nat * nat := (18, 22)%nat.
Definition BYTES_SIZE_IX : nat * nat := (22, 30)%nat.

(* b"VH00" *)
Definition EXPECTED_MAGIC : list byte := [x56; x48; x30; x30].
Definition EXPECTED_LENGTH : Z := 30.

Record t : Type := mk {
  flatbuffer_offset : Z;
  flatbuffer_size : Z;
  bytes_offset : Z;
  bytes_size : Z
}.

Definition index (ix : nat * nat) (data : list byte) : list byte :=
  py_slice (fst ix) (snd ix) data.

Definition from_bytes (data : list byte) : result t :=
  if EXPECTED_LENGTH <? Z.of_nat (length data) then
    Raise (ValueError_length (length data))
  else
    let magic_b := index MAGIC_IX data in
    if negb (bool_decide (magic_b = EXPECTED_MAGIC)) then
      Raise (ValueError_magic magic_b)
    else
      let length := int_from_bytes_little (index HEADER_SIZE_IX data) in
      if negb (length =? EXPECTED_LENGTH) then
        Raise (ValueError_header_length length)
      else
        let flatbuffer_offset_b := index FLATBUFFER_OFFSET_IX data in
        let flatbuffer_size_b := index FLATBUFFER_SIZE_IX data in
        let bytes_offset_b := index BYTES_OFFSET_IX data in
        let bytes_size_b := index BYTES_SIZE_IX data in
        Ok {| flatbuffer_offset := int_from_bytes_little flatbuffer_offset_b;
              flatbuffer_size := int_from_bytes_little flatbuffer_size_b;
              bytes_offset := int_from_bytes_little bytes_offset_b;
              bytes_size := int_from_bytes_little bytes_size_b |}.

Definition is_valid (self : t) : bool :=
  if flatbuffer_size self <=? 0 then false
  else
    let expected_offset := flatbuffer_offset self + flatbuffer_size self in
    if bytes_offset self <? expected_offset then false
    else if bytes_size self <? 0 then false
    else true.

Definition to_bytes (self : t) : result (list byte) :=
  if negb (is_valid self) then Raise ValueError_invalid
  else
    len_b <-! int_to_bytes_little EXPECTED_LENGTH 2;
    fo_b <-! int_to_bytes_little (flatbuffer_offset self) 4;
    fs_b <-! int_to_bytes_little (flatbuffer_size self) 4;
    bo_b <-! int_to_bytes_little (bytes_offset self) 4;
    bs_b <-! int_to_bytes_little (bytes_size self) 8;
    let data := [x00; x00; x00; x00] ++ EXPECTED_MAGIC ++ len_b
                  ++ fo_b ++ fs_b ++ bo_b ++ bs_b in
    if negb (Z.of_nat (length data) =? EXPECTED_LENGTH) then Raise AssertionError
    else Ok data.

(** Every field fits the width [to_bytes] gives it. *)
Definition fits (self : t) : Prop :=
  0 <= flatbuffer_offset self < 2 ^ 32 /\
  0 <= flatbuffer_size self < 2 ^ 32 /\
  0 <= bytes_offset self < 2 ^ 32 /\
  0 <= bytes_size self < 2 ^ 64.

(** The layout [to_bytes] writes, as a function of the fields. *)
Definition layout (self : t) : list byte :=
  [x00; x00; x00; x00] ++ EXPECTED_MAGIC ++ le_digits 2 EXPECTED_LENGTH
    ++ le_digits 4 (flatbuffer_offset self)
    ++ le_digits 4 (flatbuffer_size self)
    ++ le_digits 4 (bytes_offset self)
    ++ le_digits 8 (bytes_size self).

(** [data] holds [v] little-endian in the [width] bytes from offset
    [off]: byte [off + i] is digit [i] of [v] in base 256. *)
Definition encodes_le (off width : nat) (v : Z) (data : list byte) : Prop :=
  forall i : nat, (i < width)%nat ->
    data !! (off + i)%nat = Some (byte_of_Z ((v / 256 ^ Z.of_nat i) mod 256)).

End VulkanDelegateHeader.

Import VulkanDelegateHeader.

(** * View elision, memory planning and plan emission

    The test [exir/tests/test_remove_view_copy.py] drives three passes
    of the ahead-of-time compiler whose code lies outside these sources:
    the view-elision pass, the memory planner and the execution-plan
    emitter.  They are modelled here from the specification, over the
    graph the test prints ([TestModel1] after [to_executorch]). *)

Module ViewElision.

Local Open Scope nat_scope.

Inductive Dtype : Type := Float32 | Int64 | Bool8.

(** Modelled from the spec: the per-value descriptor [TensorSpec] of
    the data model, whose class is not part of the sources.  [lifetime]
    is the inclusive [first_use_index, last_use_index]; [storage] is a
    byte range (offset, size) in the constant-data segment. *)
Record TensorSpec : Type := mkSpec {
  shape : list nat;
  dtype : Dtype;
  lifetime : nat * nat;
  const : bool;
  storage : option (nat * nat);
  mem_id : option nat;
  mem_offset : option nat
}.

(** Operator identity [(namespace, name, overload)]. *)
Definition OpId : Type := string * string * string.

(** The [opcode]/[target] column of the printed graph.  Arguments are
    node indices in program order. *)
Inductive Target : Type :=
| placeholder
| view_copy (base : nat)
| alloc
| call_function (op : OpId) (args : list nat)
| output (args : list nat).

Record Node : Type := mkNode {
  name : string;
  target : Target;
  spec : TensorSpec          (* node.meta["spec"] before the passes *)
}.

Abbreviation Graph := (list Node).

Definition view_base (g : Graph) (v : nat) : option nat :=
  match g !! v with
  | Some nd => match target nd with
               | view_copy b => Some b
               | _ => None
               end
  | None => None
  end.

Definition is_view (g : Graph) (v : nat) : bool :=
  match view_base g v with Some _ => true | None => false end.

(** Modelled from the spec: "resolve its base transitively to a
    non-view ancestor".  The walk follows [view_copy] bases; a graph in
    program order needs at most as many steps as it has nodes. *)
Fixpoint root_from (fuel : nat) (g : Graph) (v : nat) : nat :=
  match fuel with
  | O => v
  | S f => match view_base g v with
           | Some b => root_from f g b
           | None => v
           end
  end.

Definition root (g : Graph) (v : nat) : nat := root_from (length g) g v.

(** What [node.meta["spec"]] holds after elision: a value that owns a
    spec, or an alias that borrows the spec of its base and keeps only
    its own shape and element type. *)
Inductive Slot : Type :=
| Owner (s : TensorSpec)
| AliasOf (base : nat) (sh : list nat) (dt : Dtype).

Definition extend_lifetime (s : TensorSpec) (last_use : nat) : TensorSpec :=
  {| shape := shape s; dtype := dtype s;
     lifetime := (fst (lifetime s), Nat.max (snd (lifetime s)) last_use);
     const := const s; storage := storage s;
     mem_id := mem_id s; mem_offset := mem_offset s |}.

(** Modelled from the spec: one step of the view-elision pass (§4.1).
    For a view node [v] the base is resolved to its non-view ancestor
    [r], the ancestor's lifetime upper bound is extended to the view's
    last use, and [v] is recorded as an alias of [r]; other nodes are
    left alone. *)
Definition elide_node (g : Graph) (st : list Slot) (v : nat) : list Slot :=
  match g !! v with
  | Some nd =>
      match target nd with
      | view_copy b =>
          let r := root g b in
          match st !! r with
          | Some (Owner sb) =>
              <[v := AliasOf r (shape (spec nd)) (dtype (spec nd))]>
                (<[r := Owner (extend_lifetime sb (snd (lifetime (spec nd))))]> st)
          | _ => st
          end
      | _ => st
      end
  | None => st
  end.

(** The pass over the first [k] nodes, in program order. *)
Definition elide_upto (g : Graph) (k : nat) : list Slot :=
  foldl (elide_node g) (Owner ∘ spec <$> g) (seq 0 k).

(** Modelled from the spec: the view-elision pass. *)
Definition elide (g : Graph) : list Slot := elide_upto g (length g).

Definition assign (pool : nat * nat) (s : TensorSpec) : TensorSpec :=
  if const s then s
  else {| shape := shape s; dtype := dtype s; lifetime := lifetime s;
          const := const s; storage := storage s;
          mem_id := Some (fst pool); mem_offset := Some (snd pool) |}.

(** Modelled from the spec: the memory planner (§4.2), with its
    allocation policy [strategy] left pluggable: every non-constant
    owner gets the [(mem_id, mem_offset)] the policy picks for it;
    constants keep their storage, and aliases have no field to write. *)
Definition plan (strategy : nat -> TensorSpec -> nat * nat)
    (st : list Slot) : list Slot :=
  imap (fun i slot =>
          match slot with
          | Owner s => Owner (assign (strategy i s) s)
          | AliasOf r sh dt => AliasOf r sh dt
          end) st.

Definition with_shape (sh : list nat) (dt : Dtype) (s : TensorSpec) : TensorSpec :=
  {| shape := sh; dtype := dt; lifetime := lifetime s;
     const := const s; storage := storage s;
     mem_id := mem_id s; mem_offset := mem_offset s |}.

Definition owner_spec (st : list Slot) (r : nat) : option TensorSpec :=
  match st !! r with
  | Some (Owner s) => Some s
  | _ => None
  end.

(** [node.meta["spec"]] as later passes read it: an alias answers with
    the fields of its base. *)
Definition spec_of (st : list Slot) (v : nat) : option TensorSpec :=
  match st !! v with
  | Some (Owner s) => Some s
  | Some (AliasOf r sh dt) => with_shape sh dt <$> owner_spec st r
  | None => None
  end.

(** The last use among [b] and the views among the first [k] nodes
    that resolve to [b]. *)
Definition group_last (g : Graph) (k : nat) (b : nat) (last0 : nat) : nat :=
  foldl (fun acc v =>
           match g !! v with
           | Some nd =>
               if is_view g v && bool_decide (root g v = b)
               then Nat.max acc (snd (lifetime (spec nd)))
               else acc
           | None => acc
           end) last0 (seq 0 k).

(** The slot of node [i] once the pass has handled the first [k]
    nodes: a handled view is an alias of its root; any other node owns
    its spec, with the lifetime stretched over its handled views. *)
Definition elided_slot (g : Graph) (k i : nat) (nd : Node) : Slot :=
  if is_view g i && (i <? k)
  then AliasOf (root g i) (shape (spec nd)) (dtype (spec nd))
  else Owner (extend_lifetime (spec nd)
                (group_last g k i (snd (lifetime (spec nd))))).

(** The spec an owner ends with after both passes: its own, with the
    lifetime stretched over its views, then planned. *)
Definition planned_owner (strategy : nat -> TensorSpec -> nat * nat)
    (g : Graph) (r : nat) (nd : Node) : TensorSpec :=
  let s := extend_lifetime (spec nd)
             (group_last g (length g) r (snd (lifetime (spec nd)))) in
  assign (strategy r s) s.

(** Graphs the passes accept: nodes are in program order, so a view
    comes after its base; and before planning a spec has storage
    exactly when it is constant and no pool assignment yet. *)
Definition well_formed (g : Graph) : Prop :=
  (forall v b, view_base g v = Some b -> b < v) /\
  (forall v nd, g !! v = Some nd ->
     (const (spec nd) = true <-> is_Some (storage (spec nd))) /\
     mem_id (spec nd) = None /\ mem_offset (spec nd) = None).

(** ** Plan emission *)

Inductive Arg : Type :=
| SpecRef (node : nat)
| Immediate (v : list nat).

Record Instruction : Type := mkInstr {
  op_index : nat;
  instr_args : list Arg
}.

Record Emitter : Type := mkEmitter {
  operators : list OpId;                 (* the operator table *)
  op_lookup : gmap OpId nat;             (* identity -> table index *)
  instructions : list Instruction
}.

Definition empty_emitter : Emitter :=
  {| operators := []; op_lookup := ∅; instructions := [] |}.

(** Modelled from the spec: operator deduplication (§4.3).  The first
    occurrence of an identity appends a table entry and returns its
    index; later occurrences reuse that index. *)
Definition get_op_index (e : Emitter) (op : OpId) : nat * Emitter :=
  match op_lookup e !! op with
  | Some i => (i, e)
  | None =>
      let i := length (operators e) in
      (i, {| operators := operators e ++ [op];
             op_lookup := <[op := i]> (op_lookup e);
             instructions := instructions e |})
  end.

Definition push_instruction (e : Emitter) (op : OpId) (args : list Arg) : Emitter :=
  let '(i, e') := get_op_index e op in
  {| operators := operators e'; op_lookup := op_lookup e';
     instructions := instructions e' ++ [{| op_index := i; instr_args := args |}] |}.

(* The reinterpret operator an elided view is emitted as. *)
Definition et_view : OpId := ("executorch_prim", "et_view", "default")%string.

(** Modelled from the spec: a view "still requires a cheap reinterpret
    step" when it changes the shape of its base; a view that keeps the
    shape is fully absorbed. *)
Definition needs_reinterpret (g : Graph) (b : nat) (nd : Node) : bool :=
  match g !! b with
  | Some base => negb (bool_decide (shape (spec nd) = shape (spec base)))
  | None => true
  end.

(** Modelled from the spec: one instruction per executable node, in
    program order (§4.3).  Placeholders, [alloc] and the output node
    are not executable; a view that needs it is emitted as the
    lightweight reinterpret, a fully absorbed one emits nothing. *)
Definition emit_node (g : Graph) (e : Emitter) (ind : nat * Node) : Emitter :=
  let '(i, nd) := ind in
  match target nd with
  | view_copy b =>
      if needs_reinterpret g b nd then
        push_instruction e et_view
          [SpecRef b; Immediate (shape (spec nd)); SpecRef i]
      else e
  | call_function op args =>
      push_instruction e op (SpecRef <$> args)
  | placeholder | alloc | output _ => e
  end.

Definition emit (g : Graph) : Emitter :=
  foldl (emit_node g) empty_emitter (imap (fun i nd => (i, nd)) g).

(** The callee identity a node is emitted with, if it is executable. *)
Definition node_op (g : Graph) (nd : Node) : option OpId :=
  match target nd with
  | view_copy b => if needs_reinterpret g b nd then Some et_view else None
  | call_function op _ => Some op
  | placeholder | alloc | output _ => None
  end.

(** The callee identities of the executable nodes, in program order. *)
Definition emitted_ops (g : Graph) : list OpId := omap (node_op g) g.

(** First-seen order: the distinct identities of a sequence, each at
    the place of its first occurrence. *)
Definition see (table : list OpId) (op : OpId) : list OpId :=
  if decide (op ∈ table) then table else table ++ [op].

Definition first_seen (ops : list OpId) : list OpId := foldl see [] ops.

(** The table and the mapping of an emitter agree, and no identity is
    entered twice. *)
Definition consistent (e : Emitter) : Prop :=
  NoDup (operators e) /\
  forall op i, op_lookup e !! op = Some i <-> operators e !! i = Some op.

(** ** The scenario of the test *)

Definition mul_out : OpId := ("aten", "mul", "out")%string.

Definition runtime_spec (sh : list nat) (first last : nat) : TensorSpec :=
  {| shape := sh; dtype := Float32; lifetime := (first, last);
     const := false; storage := None; mem_id := None; mem_offset := None |}.

Definition const_spec (sh : list nat) (first last : nat) (range : nat * nat)
    : TensorSpec :=
  {| shape := sh; dtype := Float32; lifetime := (first, last);
     const := true; storage := Some range; mem_id := None; mem_offset := None |}.

(** [TestModel1] as the test prints it, idx 0 to 7. *)
Definition test_model1 : Graph :=
  [ mkNode "p_parameter" placeholder (const_spec [5; 6] 0 2 (0, 120));
    mkNode "x" placeholder (runtime_spec [5; 6] 1 3);
    mkNode "aten_view_copy_default" (view_copy 0) (runtime_spec [6; 5] 2 5);
    mkNode "aten_view_copy_default_1" (view_copy 1) (runtime_spec [6; 5] 3 5);
    mkNode "alloc" alloc (runtime_spec [6; 5] 4 6);
    mkNode "aten_mul_tensor" (call_function mul_out [2; 3; 4])
      (runtime_spec [6; 5] 4 6);
    mkNode "aten_view_copy_default_2" (view_copy 5) (runtime_spec [30] 6 7);
    mkNode "output_1" (output [6]) (runtime_spec [30] 7 7) ].

(* A planner policy for the examples: pool 1, 128 bytes per node. *)
Definition linear_strategy (i : nat) (s : TensorSpec) : nat * nat :=
  (1, 128 * i).

End ViewElision.

(** * TestModel1.forward

    The model under test, [TestModel1] of
    [exir/tests/test_remove_view_copy.py].  A tensor is taken contiguous
    and is its sizes with its elements in row-major order; the element
    type and its multiplication stay abstract.  [Tensor.view] on such a
    tensor keeps the elements and replaces the sizes, and raises when
    the requested sizes do not hold as many elements. *)

Module TestModel1.

Local Open Scope nat_scope.

Record Tensor (F : Type) : Type := mkTensor {
  sizes : list nat;
  elements : list F
}.
Arguments mkTensor {F} sizes elements.
Arguments sizes {F} t.
Arguments elements {F} t.

Inductive torch_result (A : Type) : Type :=
| Returns (a : A)
| RuntimeError_shape (requested : list nat) (input_size : nat).
      (* "shape '[6, 5]' is invalid for input of size N" *)
Arguments Returns {A} a.
Arguments RuntimeError_shape {A} requested input_size.

Definition numel (shape : list nat) : nat := foldr Nat.mul 1 shape.

(** [Tensor.view] with explicit sizes (no inferred [-1] dimension). *)
Definition view {F : Type} (t : Tensor F) (shape : list nat)
    : torch_result (Tensor F) :=
  if bool_decide (numel shape = numel (sizes t))
  then Returns (mkTensor shape (elements t))
  else RuntimeError_shape shape (numel (sizes t)).

(** [torch.ops.aten.mul.Tensor] on two tensors of the same sizes, the
    only way [forward] calls it: the elementwise product. *)
Definition mul_Tensor {F : Type} (elt_mul : F -> F -> F) (a b : Tensor F)
    : Tensor F :=
  mkTensor (sizes a) (zip_with elt_mul (elements a) (elements b)).

(** [TestModel1.forward], with [self.parameter] as an argument. *)
Definition forward {F : Type} (elt_mul : F -> F -> F)
    (parameter x : Tensor F) : torch_result (Tensor F) :=
  match view parameter [6; 5] with
  | RuntimeError_shape s n => RuntimeError_shape s n
  | Returns v1 =>
      match view x [6; 5] with
      | RuntimeError_shape s n => RuntimeError_shape s n
      | Returns v2 => view (mul_Tensor elt_mul v1 v2) [30]
      end
  end.

End TestModel1.

(** ** Little-endian digits *)

Section LittleEndian.

Lemma byte_to_Z_range (b : byte) : 0 <= byte_to_Z b < 256.
Proof.
  unfold byte_to_Z. pose proof (Byte.to_N_bounded b). lia.
Qed.

Lemma byte_of_to_Z (b : byte) : byte_of_Z (byte_to_Z b) = b.
Proof.
  unfold byte_of_Z, byte_to_Z. rewrite N2Z.id, Byte.of_to_N. reflexivity.
Qed.

Lemma byte_to_of_Z (z : Z) : 0 <= z < 256 -> byte_to_Z (byte_of_Z z) = z.
Proof.
  intros Hz. unfold byte_of_Z, byte_to_Z.
  destruct (Byte.of_N (Z.to_N z)) as [b|] eqn:E.
  - apply Byte.to_of_N in E. rewrite E. lia.
  - apply Byte.of_N_None_iff in E. lia.
Qed.

Lemma length_le_digits (len : nat) (n : Z) : length (le_digits len n) = len.
Proof.
  revert n. induction len as [|k IH]; intros n; simpl; [reflexivity|].
  now rewrite IH.
Qed.

Lemma int_from_bytes_little_range (bs : list byte) :
  0 <= int_from_bytes_little bs < 256 ^ Z.of_nat (length bs).
Proof.
  induction bs as [|b rest IH]; simpl int_from_bytes_little.
  - simpl. lia.
  - change (length (b :: rest)) with (S (length rest)).
    rewrite Nat2Z.inj_succ, Z.pow_succ_r by lia.
    pose proof (byte_to_Z_range b). lia.
Qed.

Lemma int_from_le_digits (len : nat) (n : Z) :
  0 <= n < 256 ^ Z.of_nat len ->
  int_from_bytes_little (le_digits len n) = n.
Proof.
  revert n. induction len as [|k IH]; intros n Hn.
  - simpl in *. lia.
  - rewrite Nat2Z.inj_succ, Z.pow_succ_r in Hn by lia.
    cbn [le_digits int_from_bytes_little].
    rewrite byte_to_of_Z by (apply Z.mod_pos_bound; lia).
    rewrite IH.
    + pose proof (Z.div_mod n 256). lia.
    + split; [apply Z.div_pos; lia | apply Z.div_lt_upper_bound; lia].
Qed.

Lemma le_digits_int_from (bs : list byte) :
  le_digits (length bs) (int_from_bytes_little bs) = bs.
Proof.
  induction bs as [|b rest IH]; [reflexivity|].
  cbn [length le_digits int_from_bytes_little].
  pose proof (byte_to_Z_range b) as Hb.
  replace ((byte_to_Z b + 256 * int_from_bytes_little rest) mod 256)
    with (byte_to_Z b).
  2:{ apply Z.mod_unique_pos with (q := int_from_bytes_little rest); lia. }
  replace ((byte_to_Z b + 256 * int_from_bytes_little rest) / 256)
    with (int_from_bytes_little rest).
  2:{ apply Z.div_unique_pos with (r := byte_to_Z b); lia. }
  now rewrite byte_of_to_Z, IH.
Qed.

Lemma int_to_bytes_little_ok (n : Z) (len : nat) :
  0 <= n < 256 ^ Z.of_nat len ->
  int_to_bytes_little n len = Ok (le_digits len n).
Proof.
  intros Hn. unfold int_to_bytes_little.
  destruct (Z.ltb_spec n 0); [lia|].
  destruct (Z.leb_spec (256 ^ Z.of_nat len) n); [lia|]. reflexivity.
Qed.

Lemma int_to_bytes_little_inv (n : Z) (len : nat) (bs : list byte) :
  int_to_bytes_little n len = Ok bs ->
  0 <= n < 256 ^ Z.of_nat len /\ bs = le_digits len n.
Proof.
  unfold int_to_bytes_little.
  destruct (Z.ltb_spec n 0); [discriminate|].
  destruct (Z.leb_spec (256 ^ Z.of_nat len) n); [discriminate|].
  intros [= <-]. split; [lia | reflexivity].
Qed.

Lemma int_to_bytes_little_raises (n : Z) (len : nat) (e : exn) :
  int_to_bytes_little n len = Raise e -> is_overflow e = true.
Proof.
  unfold int_to_bytes_little.
  destruct (n <? 0); [now intros [= <-]|].
  destruct (256 ^ Z.of_nat len <=? n); [now intros [= <-] | discriminate].
Qed.

Lemma int_to_bytes_little_overflow (n : Z) (len : nat) :
  n < 0 \/ 256 ^ Z.of_nat len <= n ->
  exists e, int_to_bytes_little n len = Raise e /\ is_overflow e = true.
Proof.
  intros Hn. unfold int_to_bytes_little.
  destruct (Z.ltb_spec n 0).
  - exists OverflowError_negative. split; reflexivity.
  - destruct (Z.leb_spec (256 ^ Z.of_nat len) n); [|lia].
    exists OverflowError_too_big. split; reflexivity.
Qed.

End LittleEndian.

(** ** The writer *)

Section Writer.

(* A field that failed to encode ends [to_bytes] with its OverflowError. *)
Ltac raised_overflow E :=
  cbn [bind]; eexists; split;
  [reflexivity | eapply int_to_bytes_little_raises; exact E].

Lemma pow_256_2 : 256 ^ Z.of_nat 2 = 65536.
Proof. reflexivity. Qed.

Lemma pow_256_4 : 256 ^ Z.of_nat 4 = 2 ^ 32.
Proof. reflexivity. Qed.

Lemma pow_256_8 : 256 ^ Z.of_nat 8 = 2 ^ 64.
Proof. reflexivity. Qed.

Lemma length_layout (h : t) : length (layout h) = 30%nat.
Proof.
  unfold layout. rewrite !length_app, !length_le_digits. reflexivity.
Qed.

Lemma to_bytes_invalid (h : t) :
  is_valid h = false -> to_bytes h = Raise ValueError_invalid.
Proof. intros Hv. unfold to_bytes. now rewrite Hv. Qed.

Lemma to_bytes_ok (h : t) :
  is_valid h = true -> fits h -> to_bytes h = Ok (layout h).
Proof.
  intros Hv (Hfo & Hfs & Hbo & Hbs). unfold to_bytes. rewrite Hv.
  cbn [negb].
  rewrite (int_to_bytes_little_ok EXPECTED_LENGTH 2)
    by (rewrite pow_256_2; unfold EXPECTED_LENGTH; lia).
  rewrite !int_to_bytes_little_ok by (rewrite ?pow_256_4, ?pow_256_8; lia).
  cbn [bind]. fold (layout h). rewrite length_layout. reflexivity.
Qed.

Lemma to_bytes_inv (h : t) (data : list byte) :
  to_bytes h = Ok data -> is_valid h = true /\ fits h /\ data = layout h.
Proof.
  unfold to_bytes. destruct (is_valid h) eqn:Hv; [|discriminate].
  cbn [negb].
  destruct (int_to_bytes_little EXPECTED_LENGTH 2) as [len_b|] eqn:E0;
    [|discriminate].
  destruct (int_to_bytes_little (flatbuffer_offset h) 4) as [fo_b|] eqn:E1;
    [|discriminate].
  destruct (int_to_bytes_little (flatbuffer_size h) 4) as [fs_b|] eqn:E2;
    [|discriminate].
  destruct (int_to_bytes_little (bytes_offset h) 4) as [bo_b|] eqn:E3;
    [|discriminate].
  destruct (int_to_bytes_little (bytes_size h) 8) as [bs_b|] eqn:E4;
    [|discriminate].
  cbn [bind].
  apply int_to_bytes_little_inv in E0 as [_ ->].
  apply int_to_bytes_little_inv in E1 as [H1 ->].
  apply int_to_bytes_little_inv in E2 as [H2 ->].
  apply int_to_bytes_little_inv in E3 as [H3 ->].
  apply int_to_bytes_little_inv in E4 as [H4 ->].
  fold (layout h). rewrite length_layout. cbn.
  intros [= <-]. rewrite pow_256_4 in H1, H2, H3. rewrite pow_256_8 in H4.
  repeat split; lia.
Qed.

Lemma to_bytes_overflow (h : t) :
  is_valid h = true -> ~ fits h ->
  exists e, to_bytes h = Raise e /\ is_overflow e = true.
Proof.
  intros Hv Hnf. unfold to_bytes. rewrite Hv. cbn [negb].
  rewrite (int_to_bytes_little_ok EXPECTED_LENGTH 2)
    by (rewrite pow_256_2; unfold EXPECTED_LENGTH; lia).
  cbn [bind].
  destruct (int_to_bytes_little (flatbuffer_offset h) 4) as [fo_b|e] eqn:E1;
    [|raised_overflow E1].
  destruct (int_to_bytes_little (flatbuffer_size h) 4) as [fs_b|e] eqn:E2;
    [|raised_overflow E2].
  destruct (int_to_bytes_little (bytes_offset h) 4) as [bo_b|e] eqn:E3;
    [|raised_overflow E3].
  destruct (int_to_bytes_little (bytes_size h) 8) as [bs_b|e] eqn:E4;
    [|raised_overflow E4].
  exfalso. apply Hnf.
  apply int_to_bytes_little_inv in E1 as [H1 _].
  apply int_to_bytes_little_inv in E2 as [H2 _].
  apply int_to_bytes_little_inv in E3 as [H3 _].
  apply int_to_bytes_little_inv in E4 as [H4 _].
  rewrite pow_256_4 in H1, H2, H3. rewrite pow_256_8 in H4.
  repeat split; lia.
Qed.

End Writer.

(** ** The reader *)

Section Reader.

Lemma le_digits_lookup (len : nat) (n : Z) (i : nat) :
  (i < len)%nat ->
  le_digits len n !! i = Some (byte_of_Z ((n / 256 ^ Z.of_nat i) mod 256)).
Proof.
  revert n i. induction len as [|k IH]; intros n i Hi; [lia|].
  destruct i as [|j].
  - cbn. now rewrite Z.div_1_r.
  - cbn [le_digits lookup list_lookup]. rewrite IH by lia.
    rewrite Nat2Z.inj_succ, Z.pow_succ_r by lia.
    rewrite Z.div_div by lia. reflexivity.
Qed.

Lemma index_layout_magic (h : t) : index MAGIC_IX (layout h) = EXPECTED_MAGIC.
Proof. reflexivity. Qed.

Lemma index_layout_header_size (h : t) :
  index HEADER_SIZE_IX (layout h) = le_digits 2 EXPECTED_LENGTH.
Proof. reflexivity. Qed.

Lemma index_layout_flatbuffer_offset (h : t) :
  index FLATBUFFER_OFFSET_IX (layout h) = le_digits 4 (flatbuffer_offset h).
Proof. reflexivity. Qed.

Lemma index_layout_flatbuffer_size (h : t) :
  index FLATBUFFER_SIZE_IX (layout h) = le_digits 4 (flatbuffer_size h).
Proof. reflexivity. Qed.

Lemma index_layout_bytes_offset (h : t) :
  index BYTES_OFFSET_IX (layout h) = le_digits 4 (bytes_offset h).
Proof. reflexivity. Qed.

Lemma index_layout_bytes_size (h : t) :
  index BYTES_SIZE_IX (layout h) = le_digits 8 (bytes_size h).
Proof. reflexivity. Qed.

Lemma from_bytes_layout (h : t) : fits h -> from_bytes (layout h) = Ok h.
Proof.
  intros (Hfo & Hfs & Hbo & Hbs). unfold from_bytes.
  rewrite length_layout. change (EXPECTED_LENGTH <? Z.of_nat 30) with false.
  cbv iota zeta.
  rewrite index_layout_magic, index_layout_header_size.
  rewrite bool_decide_eq_true_2 by reflexivity. cbn [negb].
  rewrite (int_from_le_digits 2 EXPECTED_LENGTH)
    by (rewrite pow_256_2; unfold EXPECTED_LENGTH; lia).
  rewrite Z.eqb_refl. cbn [negb].
  rewrite index_layout_flatbuffer_offset, index_layout_flatbuffer_size,
    index_layout_bytes_offset, index_layout_bytes_size.
  rewrite !int_from_le_digits by (rewrite ?pow_256_4, ?pow_256_8; lia).
  destruct h; reflexivity.
Qed.

(** What a successful parse says about its input: the three guards
    passed, and the fields are the decoded slices. *)
Lemma from_bytes_inv (data : list byte) (h : t) :
  from_bytes data = Ok h ->
  (length data <= 30)%nat /\
  index MAGIC_IX data = EXPECTED_MAGIC /\
  int_from_bytes_little (index HEADER_SIZE_IX data) = EXPECTED_LENGTH /\
  h = {| flatbuffer_offset := int_from_bytes_little (index FLATBUFFER_OFFSET_IX data);
         flatbuffer_size := int_from_bytes_little (index FLATBUFFER_SIZE_IX data);
         bytes_offset := int_from_bytes_little (index BYTES_OFFSET_IX data);
         bytes_size := int_from_bytes_little (index BYTES_SIZE_IX data) |}.
Proof.
  unfold from_bytes.
  destruct (Z.ltb_spec EXPECTED_LENGTH (Z.of_nat (length data))) as [|Hlen];
    [discriminate|].
  destruct (bool_decide_reflect (index MAGIC_IX data = EXPECTED_MAGIC))
    as [Hm|]; [|discriminate].
  cbn [negb].
  destruct (Z.eqb_spec (int_from_bytes_little (index HEADER_SIZE_IX data))
              EXPECTED_LENGTH) as [Hl|]; [|discriminate].
  cbn [negb]. intros [= <-]. unfold EXPECTED_LENGTH in Hlen.
  repeat split; [lia | assumption | assumption].
Qed.

(** The converse: the three guards are all there is. *)
Lemma from_bytes_accepts (data : list byte) :
  (length data <= 30)%nat ->
  index MAGIC_IX data = EXPECTED_MAGIC ->
  int_from_bytes_little (index HEADER_SIZE_IX data) = EXPECTED_LENGTH ->
  exists h, from_bytes data = Ok h.
Proof.
  intros Hlen Hm Hl. unfold from_bytes.
  destruct (Z.ltb_spec EXPECTED_LENGTH (Z.of_nat (length data)));
    [unfold EXPECTED_LENGTH in *; lia|].
  rewrite bool_decide_eq_true_2 by assumption. cbn [negb].
  rewrite Hl, Z.eqb_refl. cbn [negb]. eauto.
Qed.

End Reader.

(** ** Properties of the header *)

(** C1 (header round-trip): whenever [to_bytes] succeeds on a header
    [h], the header was valid, the buffer has 30 bytes, and [from_bytes]
    on that buffer returns a header equal to [h] in all four fields. *)
Theorem header_round_trip (h : t) (data : list byte) :
  to_bytes h = Ok data ->
  is_valid h = true /\
  length data = 30%nat /\
  exists h',
    from_bytes data = Ok h' /\
    flatbuffer_offset h' = flatbuffer_offset h /\
    flatbuffer_size h' = flatbuffer_size h /\
    bytes_offset h' = bytes_offset h /\
    bytes_size h' = bytes_size h.
Proof.
  intros Hw. apply to_bytes_inv in Hw as (Hv & Hf & ->).
  split; [assumption|]. split; [apply length_layout|].
  exists h. rewrite from_bytes_layout by assumption. repeat split.
Qed.

Lemma header_round_trip_witness :
  to_bytes (mk 30 100 130 7) =
    Ok [x00; x00; x00; x00; x56; x48; x30; x30; x1e; x00;
        x1e; x00; x00; x00; x64; x00; x00; x00; x82; x00; x00; x00;
        x07; x00; x00; x00; x00; x00; x00; x00] /\
  from_bytes
    [x00; x00; x00; x00; x56; x48; x30; x30; x1e; x00;
     x1e; x00; x00; x00; x64; x00; x00; x00; x82; x00; x00; x00;
     x07; x00; x00; x00; x00; x00; x00; x00] = Ok (mk 30 100 130 7).
Proof.
  split; [reflexivity|].
  destruct (header_round_trip (mk 30 100 130 7)
              [x00; x00; x00; x00; x56; x48; x30; x30; x1e; x00;
               x1e; x00; x00; x00; x64; x00; x00; x00; x82; x00; x00; x00;
               x07; x00; x00; x00; x00; x00; x00; x00] eq_refl)
    as (_ & _ & h' & Hr & H1 & H2 & H3 & H4).
  rewrite Hr. destruct h'; cbn in *. now subst.
Defined.

(** C2 (header rejection): [from_bytes] raises, and so returns no
    header, on a buffer longer than 30 bytes, on a buffer whose bytes
    4..7 are not [b"VH00"], and on a buffer whose bytes 8..9 do not
    decode (little-endian) to 30. *)
Theorem from_bytes_rejects (data : list byte) :
  (30 < length data)%nat \/
  py_slice 4 8 data <> [x56; x48; x30; x30] \/
  int_from_bytes_little (py_slice 8 10 data) <> 30 ->
  exists e, from_bytes data = Raise e /\
            forall h, from_bytes data <> Ok h.
Proof.
  intros Hbad.
  destruct (from_bytes data) as [h|e] eqn:E.
  - exfalso. apply from_bytes_inv in E as (Hlen & Hm & Hl & _).
    destruct Hbad as [Hbad | [Hbad | Hbad]]; [lia | now apply Hbad | now apply Hbad].
  - exists e. split; [reflexivity | discriminate].
Qed.

Lemma from_bytes_rejects_witness :
  (exists e, from_bytes (replicate 31 x00) = Raise e) /\
  (exists e, from_bytes [x00; x00; x00; x00; x56; x48; x30; x31; x1e; x00]
             = Raise e) /\
  (exists e, from_bytes [x00; x00; x00; x00; x56; x48; x30; x30; x1f; x00]
             = Raise e).
Proof.
  split; [|split].
  - destruct (from_bytes_rejects (replicate 31 x00)) as (e & He & _).
    + left. cbn. lia.
    + exists e. exact He.
  - destruct (from_bytes_rejects
                [x00; x00; x00; x00; x56; x48; x30; x31; x1e; x00])
      as (e & He & _).
    + right. left. cbn. discriminate.
    + exists e. exact He.
  - destruct (from_bytes_rejects
                [x00; x00; x00; x00; x56; x48; x30; x30; x1f; x00])
      as (e & He & _).
    + right. right. cbn. discriminate.
    + exists e. exact He.
Defined.

(** C3 (short buffers): the length guard of [from_bytes] only rejects
    buffers longer than 30 bytes.  The 10-byte buffer that stops right
    after a correct magic and a correct header length is parsed, with
    every missing field decoded from an empty slice as 0. *)
Theorem from_bytes_short_buffer_accepted :
  from_bytes [x00; x00; x00; x00; x56; x48; x30; x30; x1e; x00]
  = Ok {| flatbuffer_offset := 0; flatbuffer_size := 0;
          bytes_offset := 0; bytes_size := 0 |}.
Proof. reflexivity. Qed.

Lemma encodes_le_slice (off width : nat) (v : Z) (data : list byte) :
  py_slice off (off + width) data = le_digits width v ->
  encodes_le off width v data.
Proof.
  intros Hs i Hi. rewrite <- (le_digits_lookup width v i) by assumption.
  rewrite <- Hs. unfold py_slice.
  replace (off + width - off)%nat with width by lia.
  rewrite lookup_take_lt by assumption. now rewrite lookup_drop.
Qed.

Lemma is_valid_iff (h : t) :
  is_valid h = true <->
  0 < flatbuffer_size h /\
  flatbuffer_offset h + flatbuffer_size h <= bytes_offset h /\
  0 <= bytes_size h.
Proof.
  unfold is_valid.
  destruct (Z.leb_spec (flatbuffer_size h) 0);
    [split; [discriminate | lia]|].
  destruct (Z.ltb_spec (bytes_offset h) (flatbuffer_offset h + flatbuffer_size h));
    [split; [discriminate | lia]|].
  destruct (Z.ltb_spec (bytes_size h) 0); [split; [discriminate | lia]|].
  split; [lia | reflexivity].
Qed.

(** C4, as the code has it: [to_bytes] raises [ValueError] whenever
    [is_valid] is false; on a valid header whose fields fit their widths
    (4, 4, 4 and 8 bytes, unsigned) it returns exactly 30 bytes: bytes
    0..3 zero, bytes 4..7 [b"VH00"], bytes 8..9 the little-endian 30, and
    the four fields little-endian at offsets 10, 14, 18 and 22. *)
Theorem to_bytes_layout (h : t) :
  (is_valid h = true -> fits h) ->
  if is_valid h then
    exists data,
      to_bytes h = Ok data /\
      length data = 30%nat /\
      py_slice 0 4 data = [x00; x00; x00; x00] /\
      py_slice 4 8 data = [x56; x48; x30; x30] /\
      py_slice 8 10 data = [x1e; x00] /\
      encodes_le 8 2 30 data /\
      encodes_le 10 4 (flatbuffer_offset h) data /\
      encodes_le 14 4 (flatbuffer_size h) data /\
      encodes_le 18 4 (bytes_offset h) data /\
      encodes_le 22 8 (bytes_size h) data
  else to_bytes h = Raise ValueError_invalid.
Proof.
  intros Hfit. destruct (is_valid h) eqn:Hv.
  - exists (layout h). rewrite to_bytes_ok by auto.
    repeat split; try apply length_layout; now apply encodes_le_slice.
  - now apply to_bytes_invalid.
Qed.

Lemma to_bytes_layout_witness :
  (exists data, to_bytes (mk 30 100 130 7) = Ok data /\ length data = 30%nat) /\
  to_bytes (mk 0 0 0 0) = Raise ValueError_invalid.
Proof.
  split.
  - pose proof (to_bytes_layout (mk 30 100 130 7)) as H.
    change (is_valid (mk 30 100 130 7)) with true in H.
    destruct H as (data & Hd & Hl & _).
    + intros _. unfold fits. cbn. lia.
    + exists data. split; assumption.
  - apply (to_bytes_layout (mk 0 0 0 0)). discriminate.
Defined.

(** C4 as stated fails: a valid header need not be encodable.  With
    [bytes_offset = 2^32] the header is valid, and [to_bytes] raises
    [OverflowError] instead of returning a buffer. *)
Lemma to_bytes_valid_header_raises :
  is_valid (mk 0 1 (2 ^ 32) 0) = true /\
  to_bytes (mk 0 1 (2 ^ 32) 0) = Raise OverflowError_too_big /\
  ~ exists data, to_bytes (mk 0 1 (2 ^ 32) 0) = Ok data.
Proof.
  split; [reflexivity|]. split; [reflexivity|].
  intros [data Hd]. vm_compute in Hd. discriminate.
Qed.

(** C5 (validity boundary): [is_valid] is false when
    [flatbuffer_size = 0], false when
    [bytes_offset < flatbuffer_offset + flatbuffer_size], and true at the
    boundary [bytes_offset = flatbuffer_offset + flatbuffer_size] when
    [flatbuffer_size > 0] and [bytes_size >= 0]. *)
Theorem is_valid_boundary (h : t) :
  (flatbuffer_size h = 0 -> is_valid h = false) /\
  (bytes_offset h < flatbuffer_offset h + flatbuffer_size h ->
   is_valid h = false) /\
  (0 < flatbuffer_size h -> 0 <= bytes_size h ->
   bytes_offset h = flatbuffer_offset h + flatbuffer_size h ->
   is_valid h = true).
Proof.
  pose proof (is_valid_iff h) as Hiff.
  repeat split; intros.
  - destruct (is_valid h); [|reflexivity]. lia.
  - destruct (is_valid h); [|reflexivity]. lia.
  - apply Hiff. lia.
Qed.

Lemma is_valid_boundary_witness :
  is_valid (mk 5 0 9 1) = false /\
  is_valid (mk 5 3 7 1) = false /\
  is_valid (mk 5 3 8 0) = true.
Proof.
  split; [|split].
  - destruct (is_valid_boundary (mk 5 0 9 1)) as (Hzero & _ & _).
    apply Hzero. reflexivity.
  - destruct (is_valid_boundary (mk 5 3 7 1)) as (_ & Hbelow & _).
    apply Hbelow. cbn. lia.
  - destruct (is_valid_boundary (mk 5 3 8 0)) as (_ & _ & Hat).
    apply Hat; cbn; lia.
Defined.

(** C9 (fields must fit): on a valid header with [flatbuffer_offset],
    [flatbuffer_size] or [bytes_offset] at or above [2^32], or
    [bytes_size] at or above [2^64], [to_bytes] raises [OverflowError];
    such headers exist; and [to_bytes] returns a buffer exactly on the
    valid headers whose four fields fit their widths. *)
Theorem to_bytes_requires_fit (h : t) :
  is_valid h = true ->
  2 ^ 32 <= flatbuffer_offset h \/ 2 ^ 32 <= flatbuffer_size h \/
  2 ^ 32 <= bytes_offset h \/ 2 ^ 64 <= bytes_size h ->
  (exists e, to_bytes h = Raise e /\ is_overflow e = true) /\
  (exists h0, is_valid h0 = true /\ to_bytes h0 = Raise OverflowError_too_big) /\
  (forall h', (exists data, to_bytes h' = Ok data) <->
              is_valid h' = true /\ fits h').
Proof.
  intros Hv Hwide. split; [|split].
  - apply to_bytes_overflow; [assumption|]. unfold fits. lia.
  - exists (mk 0 1 (2 ^ 32) 0). split; reflexivity.
  - intros h'. split.
    + intros [data Hd]. apply to_bytes_inv in Hd. tauto.
    + intros [Hv' Hf']. exists (layout h'). now apply to_bytes_ok.
Qed.

Lemma to_bytes_requires_fit_witness :
  exists e, to_bytes (mk 0 1 1 (2 ^ 64)) = Raise e /\ is_overflow e = true.
Proof.
  apply (to_bytes_requires_fit (mk 0 1 1 (2 ^ 64))).
  - reflexivity.
  - right. right. right. cbn. lia.
Defined.

(** C10 (parsed fields are unsigned): every header [from_bytes] returns
    has four non-negative fields, so on such a header the
    [bytes_size < 0] test of [is_valid] is false and [is_valid] is
    decided by its first two tests alone. *)
Theorem from_bytes_fields_nonneg (data : list byte) (h : t) :
  from_bytes data = Ok h ->
  0 <= flatbuffer_offset h /\ 0 <= flatbuffer_size h /\
  0 <= bytes_offset h /\ 0 <= bytes_size h /\
  (bytes_size h <? 0) = false /\
  is_valid h =
    negb (flatbuffer_size h <=? 0) &&
    negb (bytes_offset h <? flatbuffer_offset h + flatbuffer_size h).
Proof.
  intros Hp. apply from_bytes_inv in Hp as (_ & _ & _ & ->).
  cbn [flatbuffer_offset flatbuffer_size bytes_offset bytes_size].
  pose proof (int_from_bytes_little_range (index FLATBUFFER_OFFSET_IX data)).
  pose proof (int_from_bytes_little_range (index FLATBUFFER_SIZE_IX data)).
  pose proof (int_from_bytes_little_range (index BYTES_OFFSET_IX data)).
  pose proof (int_from_bytes_little_range (index BYTES_SIZE_IX data)) as Hbs.
  do 4 (split; [lia|]).
  assert ((int_from_bytes_little (index BYTES_SIZE_IX data) <? 0) = false)
    as Hlt by (apply Z.ltb_ge; lia).
  split; [exact Hlt|].
  unfold is_valid.
  cbn [flatbuffer_offset flatbuffer_size bytes_offset bytes_size].
  rewrite Hlt.
  destruct (_ <=? 0); [reflexivity|].
  destruct (_ <? _); reflexivity.
Qed.

Lemma from_bytes_fields_nonneg_witness :
  0 <= bytes_size (mk 30 100 130 7) /\ is_valid (mk 30 100 130 7) = true.
Proof.
  destruct (from_bytes_fields_nonneg
    [x00; x00; x00; x00; x56; x48; x30; x30; x1e; x00;
     x1e; x00; x00; x00; x64; x00; x00; x00; x82; x00; x00; x00;
     x07; x00; x00; x00; x00; x00; x00; x00] (mk 30 100 130 7) eq_refl)
    as (_ & _ & _ & Hbs & _ & Hv).
  split; [exact Hbs | exact Hv].
Defined.

(** ** View elision: resolving bases *)

Import ViewElision.

Section Roots.

Local Open Scope nat_scope.

Variable g : Graph.
Hypothesis Horder : forall v b, view_base g v = Some b -> b < v.

Lemma view_base_lookup (v b : nat) :
  view_base g v = Some b ->
  exists nd, g !! v = Some nd /\ target nd = view_copy b.
Proof.
  unfold view_base. destruct (g !! v) as [nd|]; [|discriminate].
  destruct (target nd) eqn:Ht; try discriminate.
  intros [= ->]. eauto.
Qed.

Lemma view_base_lt_length (v b : nat) :
  view_base g v = Some b -> v < length g.
Proof.
  intros Hv. apply view_base_lookup in Hv as (nd & Hnd & _).
  now apply lookup_lt_Some in Hnd.
Qed.

Lemma root_from_fuel (f1 f2 v : nat) :
  v < f1 -> v < f2 -> root_from f1 g v = root_from f2 g v.
Proof.
  revert f2 v. induction f1 as [|f1 IH]; intros f2 v H1 H2; [lia|].
  destruct f2 as [|f2]; [lia|]. cbn [root_from].
  destruct (view_base g v) as [b|] eqn:Hb; [|reflexivity].
  apply Horder in Hb. apply IH; lia.
Qed.

Lemma root_nonview (v : nat) : view_base g v = None -> root g v = v.
Proof.
  intros Hv. unfold root. destruct (length g); cbn [root_from];
    [reflexivity | now rewrite Hv].
Qed.

Lemma root_view (v b : nat) : view_base g v = Some b -> root g v = root g b.
Proof.
  intros Hv. pose proof (view_base_lt_length _ _ Hv) as Hlen.
  pose proof (Horder _ _ Hv) as Hlt. unfold root.
  rewrite (root_from_fuel (length g) (S v) v) by lia.
  rewrite (root_from_fuel (length g) v b) by lia.
  cbn [root_from]. now rewrite Hv.
Qed.

Lemma root_spec (v : nat) : view_base g (root g v) = None /\ root g v <= v.
Proof.
  induction (lt_wf v) as [v _ IH].
  destruct (view_base g v) as [b|] eqn:Hv.
  - rewrite (root_view _ _ Hv). pose proof (Horder _ _ Hv) as Hlt.
    destruct (IH b Hlt) as [Hn Hle]. split; [assumption | lia].
  - rewrite (root_nonview _ Hv). split; [assumption | lia].
Qed.

Lemma root_of_view_lt (v b : nat) : view_base g v = Some b -> root g v < v.
Proof.
  intros Hv. rewrite (root_view _ _ Hv).
  pose proof (Horder _ _ Hv). pose proof (root_spec b) as [_ Hle]. lia.
Qed.

Lemma is_view_root (v : nat) : is_view g (root g v) = false.
Proof. unfold is_view. now rewrite (proj1 (root_spec v)). Qed.

End Roots.

(** ** View elision: the state after [k] nodes *)

Section Elision.

Local Open Scope nat_scope.

Variable g : Graph.
Hypothesis Horder : forall v b, view_base g v = Some b -> b < v.

Lemma extend_lifetime_id (s : TensorSpec) :
  extend_lifetime s (snd (lifetime s)) = s.
Proof.
  destruct s as [sh dt [first last] c st mi mo]. unfold extend_lifetime.
  cbn. now rewrite Nat.max_id.
Qed.

Lemma extend_lifetime_twice (s : TensorSpec) (a b : nat) :
  extend_lifetime (extend_lifetime s a) b = extend_lifetime s (Nat.max a b).
Proof. unfold extend_lifetime. cbn. now rewrite Nat.max_assoc. Qed.

Lemma group_last_S (k b last0 : nat) :
  group_last g (S k) b last0 =
  match g !! k with
  | Some nd =>
      if is_view g k && bool_decide (root g k = b)
      then Nat.max (group_last g k b last0) (snd (lifetime (spec nd)))
      else group_last g k b last0
  | None => group_last g k b last0
  end.
Proof. unfold group_last. now rewrite seq_S, foldl_snoc. Qed.

Lemma group_last_ge (k b last0 : nat) : last0 <= group_last g k b last0.
Proof.
  induction k as [|k IH]; [reflexivity|]. rewrite group_last_S.
  destruct (g !! k); [|assumption].
  destruct (_ && _); lia.
Qed.

(** No view resolves to a view, so a view's own last use is never
    stretched. *)
Lemma group_last_of_view (k b last0 : nat) :
  is_view g b = true -> group_last g k b last0 = last0.
Proof.
  intros Hb. induction k as [|k IH]; [reflexivity|]. rewrite group_last_S.
  destruct (g !! k); [|assumption].
  destruct (bool_decide_reflect (root g k = b)) as [<-|_].
  - now rewrite (is_view_root g Horder) in Hb.
  - now rewrite andb_false_r.
Qed.

Lemma elide_upto_S (k : nat) :
  elide_upto g (S k) = elide_node g (elide_upto g k) k.
Proof. unfold elide_upto. now rewrite seq_S, foldl_snoc. Qed.

Lemma length_elide_node (st : list Slot) (v : nat) :
  length (elide_node g st v) = length st.
Proof.
  unfold elide_node. destruct (g !! v) as [nd|]; [|reflexivity].
  destruct (target nd); try reflexivity.
  destruct (st !! root g base) as [[sb|]|]; try reflexivity.
  now rewrite !length_insert.
Qed.

Lemma length_elide_upto (k : nat) : length (elide_upto g k) = length g.
Proof.
  induction k as [|k IH].
  - unfold elide_upto. cbn. now rewrite length_fmap.
  - now rewrite elide_upto_S, length_elide_node.
Qed.

Lemma elided_slot_0 (i : nat) (nd : Node) : elided_slot g 0 i nd = Owner (spec nd).
Proof.
  unfold elided_slot. rewrite andb_false_r.
  unfold group_last. cbn. now rewrite extend_lifetime_id.
Qed.

(** A step on a node that is not a view changes no slot. *)
Lemma elided_slot_S_nonview (k i : nat) (nd : Node) :
  is_view g k = false ->
  elided_slot g (S k) i nd = elided_slot g k i nd.
Proof.
  intros Hk. unfold elided_slot.
  assert (is_view g i && (i <? S k) = is_view g i && (i <? k)) as ->.
  { destruct (decide (i = k)) as [->|Hne]; [now rewrite Hk|].
    f_equal. destruct (Nat.ltb_spec i k), (Nat.ltb_spec i (S k));
      lia || reflexivity. }
  rewrite group_last_S, Hk. now destruct (g !! k).
Qed.

(** A step on a view changes no slot but its own and its root's. *)
Lemma elided_slot_S_other (k i : nat) (nd : Node) :
  i <> k -> root g k <> i ->
  elided_slot g (S k) i nd = elided_slot g k i nd.
Proof.
  intros Hik Hroot. unfold elided_slot.
  replace (i <? S k) with (i <? k).
  2:{ destruct (Nat.ltb_spec i k), (Nat.ltb_spec i (S k)); lia || reflexivity. }
  rewrite group_last_S. destruct (g !! k) as [ndk|]; [|reflexivity].
  rewrite bool_decide_eq_false_2 by assumption.
  now rewrite andb_false_r.
Qed.

Lemma elide_upto_lookup (k i : nat) (nd : Node) :
  k <= length g ->
  g !! i = Some nd ->
  elide_upto g k !! i = Some (elided_slot g k i nd).
Proof.
  revert i nd. induction k as [|k IH]; intros i nd Hk Hi.
  - unfold elide_upto. cbn [seq foldl].
    rewrite list_lookup_fmap, Hi. cbn. now rewrite elided_slot_0.
  - rewrite elide_upto_S. unfold elide_node.
    destruct (g !! k) as [ndk|] eqn:Hgk.
    2:{ apply lookup_ge_None in Hgk. lia. }
    assert (Hview : view_base g k =
              match target ndk with view_copy b => Some b | _ => None end)
      by (unfold view_base; now rewrite Hgk).
    destruct (target ndk) as [|b| | |] eqn:Htk;
      try (rewrite (IH i nd) by (lia || assumption);
           rewrite elided_slot_S_nonview;
           [reflexivity | unfold is_view; now rewrite Hview]).
    assert (Hvk : is_view g k = true) by (unfold is_view; now rewrite Hview).
    pose proof (root_view g Horder _ _ Hview) as Hrk. rewrite <- Hrk.
    pose proof (root_of_view_lt g Horder _ _ Hview) as Hlt.
    destruct (lookup_lt_is_Some_2 g (root g k)) as [ndr Hgr]; [lia|].
    rewrite (IH (root g k) ndr) by (lia || assumption).
    unfold elided_slot at 1. rewrite (is_view_root g Horder). cbn [andb].
    destruct (decide (i = k)) as [->|Hik].
    + rewrite list_lookup_insert_eq
        by (rewrite length_insert, length_elide_upto; lia).
      assert (nd = ndk) as -> by congruence.
      unfold elided_slot. rewrite Hvk, (proj2 (Nat.ltb_lt k (S k))) by lia.
      reflexivity.
    + rewrite list_lookup_insert_ne by auto.
      destruct (decide (i = root g k)) as [->|Hir].
      * rewrite list_lookup_insert_eq by (rewrite length_elide_upto; lia).
        assert (nd = ndr) as -> by congruence.
        unfold elided_slot. rewrite (is_view_root g Horder). cbn [andb].
        rewrite group_last_S, Hgk, Hvk.
        rewrite bool_decide_eq_true_2 by reflexivity. cbn [andb].
        now rewrite extend_lifetime_twice.
      * rewrite list_lookup_insert_ne by auto.
        rewrite (IH i nd) by (lia || assumption).
        now rewrite elided_slot_S_other by auto.
Qed.

Lemma elide_lookup (i : nat) (nd : Node) :
  g !! i = Some nd ->
  elide g !! i = Some (elided_slot g (length g) i nd).
Proof. intros Hi. now apply elide_upto_lookup. Qed.

End Elision.

(** ** View elision and planning: what a view's spec is *)

Section AliasEquivalence.

Local Open Scope nat_scope.

Variable strategy : nat -> TensorSpec -> nat * nat.
Variable g : Graph.
Hypothesis Hwf : well_formed g.

Let Horder := proj1 Hwf.

Lemma plan_lookup (st : list Slot) (i : nat) :
  plan strategy st !! i =
  (fun slot => match slot with
               | Owner s => Owner (assign (strategy i s) s)
               | AliasOf r sh dt => AliasOf r sh dt
               end) <$> st !! i.
Proof. unfold plan. now rewrite list_lookup_imap. Qed.

Lemma spec_of_owner (r : nat) (nd : Node) :
  g !! r = Some nd -> view_base g r = None ->
  spec_of (plan strategy (elide g)) r = Some (planned_owner strategy g r nd) /\
  owner_spec (plan strategy (elide g)) r = Some (planned_owner strategy g r nd).
Proof.
  intros Hr Hnv. unfold spec_of, owner_spec.
  rewrite plan_lookup, (elide_lookup g Horder r nd Hr).
  unfold elided_slot, is_view. rewrite Hnv. cbn. split; reflexivity.
Qed.

Lemma spec_of_view (v b0 : nat) (ndv ndr : Node) :
  view_base g v = Some b0 ->
  g !! v = Some ndv -> g !! root g v = Some ndr ->
  spec_of (plan strategy (elide g)) v =
    Some (with_shape (shape (spec ndv)) (dtype (spec ndv))
            (planned_owner strategy g (root g v) ndr)).
Proof.
  intros Hv Hgv Hgr.
  pose proof (view_base_lt_length g _ _ Hv) as Hlen.
  unfold spec_of at 1.
  rewrite plan_lookup, (elide_lookup g Horder v ndv Hgv).
  unfold elided_slot, is_view. rewrite Hv.
  rewrite (proj2 (Nat.ltb_lt v (length g))) by assumption. cbn.
  destruct (spec_of_owner (root g v) ndr Hgr (proj1 (root_spec g Horder v)))
    as [_ ->].
  reflexivity.
Qed.

End AliasEquivalence.

Local Open Scope nat_scope.

(** C6 (alias equivalence): for a view [v] whose base resolves to the
    non-view node [b], after elision and planning the spec of [v] equals
    the spec of [b] in [const], [storage], [mem_id], [mem_offset] and
    [lifetime]; the step that elides [v] sets the last use of [b] to the
    last use of [v] exactly when that is later, and leaves it otherwise,
    so that [b] ends with the latest last use of its alias group; a view
    of a constant is constant, has the base's storage and no pool
    assignment; a view of a non-constant has no storage and the one
    [(mem_id, mem_offset)] the planner gave its base. *)
Theorem view_spec_equals_base_spec
    (strategy : nat -> TensorSpec -> nat * nat) (g : Graph) (v b0 : nat) :
  well_formed g ->
  view_base g v = Some b0 ->
  let b := root g v in
  let final := plan strategy (elide g) in
  exists ndv ndb sv sb s0 s1,
    g !! v = Some ndv /\ g !! b = Some ndb /\ view_base g b = None /\
    spec_of final v = Some sv /\ spec_of final b = Some sb /\
    (const sv = const sb /\ storage sv = storage sb /\
     mem_id sv = mem_id sb /\ mem_offset sv = mem_offset sb /\
     lifetime sv = lifetime sb) /\
    (owner_spec (elide_upto g v) b = Some s0 /\
     owner_spec (elide_upto g (S v)) b = Some s1 /\
     fst (lifetime s1) = fst (lifetime s0) /\
     snd (lifetime s1) =
       (if (snd (lifetime s0) <? snd (lifetime (spec ndv)))%nat
        then snd (lifetime (spec ndv)) else snd (lifetime s0))) /\
    snd (lifetime sb) =
      group_last g (length g) b (snd (lifetime (spec ndb))) /\
    (snd (lifetime (spec ndv)) <= snd (lifetime sb))%nat /\
    (const (spec ndb) = true ->
     const sv = true /\ storage sv = storage (spec ndb) /\
     is_Some (storage sv) /\ mem_id sv = None /\ mem_offset sv = None) /\
    (const (spec ndb) = false ->
     const sv = false /\ storage sv = None /\
     exists pool : nat * nat,
       mem_id sv = Some (fst pool) /\ mem_offset sv = Some (snd pool) /\
       mem_id sb = Some (fst pool) /\ mem_offset sb = Some (snd pool)).
Proof.
  intros Hwf Hv b final. pose proof (proj1 Hwf) as Horder.
  destruct (view_base_lookup g _ _ Hv) as (ndv & Hgv & Htv).
  pose proof (view_base_lt_length g _ _ Hv) as Hlen.
  pose proof (root_of_view_lt g Horder _ _ Hv) as Hlt. fold b in Hlt.
  destruct (root_spec g Horder v) as [Hnv _]. fold b in Hnv.
  destruct (lookup_lt_is_Some_2 g b) as [ndb Hgb]; [lia|].
  destruct (proj2 Hwf b ndb Hgb) as (Hconst & Hmid & Hmoff).
  assert (Hvb : is_view g b = false) by (unfold is_view; now rewrite Hnv).
  assert (Hvv : is_view g v = true) by (unfold is_view; now rewrite Hv).
  exists ndv, ndb,
    (with_shape (shape (spec ndv)) (dtype (spec ndv))
       (planned_owner strategy g b ndb)),
    (planned_owner strategy g b ndb),
    (extend_lifetime (spec ndb)
       (group_last g v b (snd (lifetime (spec ndb))))),
    (extend_lifetime (spec ndb)
       (group_last g (S v) b (snd (lifetime (spec ndb))))).
  split; [assumption|]. split; [assumption|]. split; [assumption|].
  split; [now apply (spec_of_view strategy g Hwf v b0)|].
  split; [now apply (spec_of_owner strategy g Hwf)|].
  split; [repeat split|].
  split.
  { unfold owner_spec.
    rewrite (elide_upto_lookup g Horder v b ndb) by (lia || assumption).
    rewrite (elide_upto_lookup g Horder (S v) b ndb) by (lia || assumption).
    unfold elided_slot. rewrite Hvb. cbn [andb].
    split; [reflexivity|]. split; [reflexivity|]. split; [reflexivity|].
    rewrite group_last_S, Hgv, Hvv.
    rewrite bool_decide_eq_true_2 by reflexivity.
    cbn [andb extend_lifetime lifetime snd].
    destruct (Nat.ltb_spec
                (Nat.max (snd (lifetime (spec ndb)))
                   (group_last g v b (snd (lifetime (spec ndb)))))
                (snd (lifetime (spec ndv)))); lia. }
  pose proof (group_last_ge g (length g) b (snd (lifetime (spec ndb)))) as Hge.
  assert (Hlast : snd (lifetime (planned_owner strategy g b ndb)) =
                  group_last g (length g) b (snd (lifetime (spec ndb)))).
  { unfold planned_owner, assign. cbn. destruct (const (spec ndb)); cbn; lia. }
  split; [exact Hlast|].
  split.
  { rewrite Hlast.
    clear Hlast Hge.
    assert (forall k, v < k ->
              snd (lifetime (spec ndv))
              <= group_last g k b (snd (lifetime (spec ndb)))) as Hmono.
    { induction k as [|k IHk]; [lia|]. intros Hk. rewrite group_last_S.
      destruct (decide (k = v)) as [->|Hne].
      - rewrite Hgv, Hvv, bool_decide_eq_true_2 by reflexivity. cbn. lia.
      - assert (v < k) as Hvk by lia. specialize (IHk Hvk).
        destruct (g !! k); [|assumption]. destruct (_ && _); lia. }
    apply Hmono. lia. }
  split.
  - intros Hc. unfold planned_owner, assign. cbn [const extend_lifetime].
    rewrite Hc. cbn. rewrite ?Hc, ?Hmid, ?Hmoff.
    repeat split. now apply Hconst.
  - intros Hc. unfold planned_owner, assign. cbn [const extend_lifetime].
    rewrite Hc. cbn. rewrite ?Hc.
    split; [reflexivity|]. split.
    + destruct (storage (spec ndb)) eqn:Hs; [|reflexivity].
      assert (const (spec ndb) = true) by (apply Hconst; eauto). congruence.
    + eexists. repeat split.
Qed.

Lemma test_model1_well_formed : well_formed test_model1.
Proof.
  split.
  - intros v b. do 8 (destruct v as [|v]; [cbn; intros [= <-]; lia|]).
    discriminate.
  - intros v nd.
    do 8 (destruct v as [|v];
          [cbn; intros [= <-]; cbn;
           repeat split; solve [eauto | discriminate | intros [? [=]]]|]).
    discriminate.
Qed.

Lemma view_spec_equals_base_spec_witness :
  exists sv sb,
    spec_of (plan linear_strategy (elide test_model1)) 6 = Some sv /\
    spec_of (plan linear_strategy (elide test_model1)) 5 = Some sb /\
    lifetime sv = lifetime sb /\ mem_id sv = mem_id sb /\
    mem_offset sv = mem_offset sb.
Proof.
  destruct (view_spec_equals_base_spec linear_strategy test_model1 6 5
              test_model1_well_formed eq_refl)
    as (ndv & ndb & sv & sb & s0 & s1 & _ & _ & _ & Hsv & Hsb &
        (_ & _ & Hmi & Hmo & Hl) & _).
  exists sv, sb. repeat split; assumption.
Defined.

(** The scenario, evaluated: the specs the test asserts. *)
Example test_model1_specs :
  lifetime <$> spec_of (plan linear_strategy (elide test_model1)) 0 = Some (0, 5) /\
  lifetime <$> spec_of (plan linear_strategy (elide test_model1)) 5 = Some (4, 7) /\
  spec_of (plan linear_strategy (elide test_model1)) 2 =
    Some (with_shape [6; 5] Float32 (const_spec [5; 6] 0 5 (0, 120))) /\
  spec_of (plan linear_strategy (elide test_model1)) 6 =
    Some {| shape := [30]; dtype := Float32; lifetime := (4, 7);
            const := false; storage := None;
            mem_id := Some 1; mem_offset := Some 640 |}.
Proof. repeat split. Qed.

(** ** Plan emission: the operator table *)

Section Emission.

Variable g : Graph.

Lemma consistent_empty : consistent empty_emitter.
Proof.
  split; [constructor|]. intros op i. cbn.
  rewrite lookup_empty. split; discriminate.
Qed.

Lemma get_op_index_spec (e : Emitter) (op : OpId) :
  consistent e ->
  consistent (snd (get_op_index e op)) /\
  operators (snd (get_op_index e op)) = see (operators e) op /\
  operators (snd (get_op_index e op)) !! fst (get_op_index e op) = Some op /\
  instructions (snd (get_op_index e op)) = instructions e.
Proof.
  intros [Hnd Hmap]. unfold get_op_index, see.
  destruct (op_lookup e !! op) as [i|] eqn:Hl; cbn [fst snd].
  - apply Hmap in Hl.
    rewrite decide_True by (eapply list_elem_of_lookup_2; eassumption).
    repeat split; try assumption; apply Hmap.
  - assert (Hnotin : op ∉ operators e).
    { intros [i Hi]%list_elem_of_lookup_1. apply Hmap in Hi. congruence. }
    rewrite decide_False by assumption. cbn.
    split; [|split; [reflexivity|split; [|reflexivity]]].
    + split; cbn.
      * apply NoDup_app. split; [assumption|]. split; [|apply NoDup_singleton].
        intros x Hx ->%list_elem_of_singleton. contradiction.
      * intros op' i. destruct (decide (op = op')) as [<-|Hne].
        -- rewrite lookup_insert_eq. split.
           ++ intros [= <-]. apply list_lookup_middle. reflexivity.
           ++ intros Hi. apply lookup_snoc_Some in Hi as [[_ Hi]|[-> _]];
                [|reflexivity].
              exfalso. apply Hnotin. eapply list_elem_of_lookup_2; eassumption.
        -- rewrite lookup_insert_ne by assumption. rewrite Hmap.
           rewrite lookup_snoc_Some. split; [intros Hi; left|].
           ++ split; [eapply lookup_lt_Some; eassumption | assumption].
           ++ intros [[_ Hi]|[_ Heq]]; [assumption | congruence].
    + apply list_lookup_middle. reflexivity.
Qed.

Lemma see_prefix (table : list OpId) (op : OpId) :
  table `prefix_of` see table op.
Proof.
  unfold see. destruct (decide _); [reflexivity | now apply prefix_app_r].
Qed.

(** One node: the table sees the node's identity, and the instruction
    that is appended, if any, points at it. *)
Lemma emit_node_spec (e : Emitter) (i : nat) (nd : Node) :
  consistent e ->
  consistent (emit_node g e (i, nd)) /\
  operators (emit_node g e (i, nd)) =
    foldl see (operators e) (option_list (node_op g nd)) /\
  exists new,
    instructions (emit_node g e (i, nd)) = instructions e ++ new /\
    Forall2 (fun ins op =>
               operators (emit_node g e (i, nd)) !! op_index ins = Some op)
      new (option_list (node_op g nd)).
Proof.
  intros He.
  assert (Hpush : forall op args,
    consistent (push_instruction e op args) /\
    operators (push_instruction e op args) = foldl see (operators e) [op] /\
    exists new,
      instructions (push_instruction e op args) = instructions e ++ new /\
      Forall2 (fun ins op' =>
                 operators (push_instruction e op args) !! op_index ins
                 = Some op') new [op]).
  { intros op args. unfold push_instruction.
    destruct (get_op_index_spec e op He) as (Hc & Hops & Hidx & Hins).
    destruct (get_op_index e op) as [j e'] eqn:Hg. cbn [fst snd] in *.
    split; [exact Hc|]. split; [exact Hops|].
    eexists. cbn [instructions operators]. rewrite Hins.
    split; [reflexivity|]. repeat constructor. exact Hidx. }
  assert (Hskip :
    consistent e /\ operators e = foldl see (operators e) [] /\
    exists new, instructions e = instructions e ++ new /\
      Forall2 (fun ins (op : OpId) => operators e !! op_index ins = Some op)
        new []).
  { split; [assumption|]. split; [reflexivity|].
    exists []. split; [now rewrite app_nil_r | constructor]. }
  unfold emit_node, node_op. destruct (target nd); cbn [option_list];
    try exact Hskip; [|apply Hpush].
  destruct (needs_reinterpret g base nd); cbn [option_list];
    [apply Hpush | exact Hskip].
Qed.

Lemma foldl_see_prefix (ops : list OpId) (table : list OpId) :
  table `prefix_of` foldl see table ops.
Proof.
  revert table. induction ops as [|op ops IH]; intros table; [reflexivity|].
  cbn. etrans; [apply (see_prefix table op) | apply IH].
Qed.

Lemma emit_fold_spec (l : list (nat * Node)) (e : Emitter) :
  consistent e ->
  consistent (foldl (emit_node g) e l) /\
  operators (foldl (emit_node g) e l) =
    foldl see (operators e) (omap (fun ind => node_op g (snd ind)) l) /\
  exists new,
    instructions (foldl (emit_node g) e l) = instructions e ++ new /\
    Forall2 (fun ins op =>
               operators (foldl (emit_node g) e l) !! op_index ins = Some op)
      new (omap (fun ind => node_op g (snd ind)) l).
Proof.
  revert e. induction l as [|[i nd] l IH]; intros e He.
  - split; [assumption|]. split; [reflexivity|].
    exists []. split; [now rewrite app_nil_r | constructor].
  - cbn [foldl].
    destruct (emit_node_spec e i nd He) as (Hc1 & Hops1 & new1 & Hins1 & Hall1).
    destruct (IH _ Hc1) as (Hc & Hops & new & Hins & Hall).
    split; [assumption|].
    assert (Hsplit : omap (fun ind => node_op g (snd ind)) ((i, nd) :: l) =
              option_list (node_op g nd)
                ++ omap (fun ind => node_op g (snd ind)) l).
    { cbn. now destruct (node_op g nd). }
    rewrite Hsplit. split.
    + now rewrite foldl_app, <- Hops1.
    + exists (new1 ++ new). rewrite Hins, Hins1, app_assoc.
      split; [reflexivity|]. apply Forall2_app; [|assumption].
      eapply Forall2_impl; [exact Hall1|]. intros ins op Hi. cbv beta in Hi.
      eapply prefix_lookup_Some; [exact Hi|].
      rewrite Hops. apply foldl_see_prefix.
Qed.

Lemma omap_imap_snd (f : Node -> option OpId) (l : list Node)
    (k : nat -> Node -> nat * Node) :
  (forall i nd, snd (k i nd) = nd) ->
  omap (fun ind : nat * Node => f (snd ind)) (imap k l) = omap f l.
Proof.
  revert k. induction l as [|x l IH]; intros k Hk; [reflexivity|].
  rewrite imap_cons. cbn [omap list_omap]. rewrite Hk.
  rewrite (IH (k ∘ S)) by (intros; apply Hk). reflexivity.
Qed.

(** The emitter fills the table in first-seen order, never enters an
    identity twice, and every instruction points at the entry of its
    own callee. *)
Lemma emit_first_seen :
  operators (emit g) = first_seen (emitted_ops g) /\
  NoDup (operators (emit g)) /\
  Forall2 (fun ins op => operators (emit g) !! op_index ins = Some op)
    (instructions (emit g)) (emitted_ops g).
Proof.
  unfold emit, first_seen, emitted_ops.
  destruct (emit_fold_spec (imap (fun i nd => (i, nd)) g) empty_emitter
              consistent_empty) as ([Hnd _] & Hops & new & Hins & Hall).
  rewrite (omap_imap_snd (node_op g) g) in Hops, Hall by reflexivity.
  cbn [instructions empty_emitter app] in Hins. rewrite Hins.
  repeat split; assumption.
Qed.

End Emission.

(** C7 (the scenario's plan): for [TestModel1] the emitted plan has
    exactly 4 instructions and exactly 2 operator-table entries, without
    repetition and in first-seen order: the view reinterpret at index 0,
    the multiply at index 1; the [op_index] sequence of the instructions
    is 0, 0, 1, 0. *)
Theorem test_model1_execution_plan :
  length (instructions (emit test_model1)) = 4 /\
  length (operators (emit test_model1)) = 2 /\
  NoDup (operators (emit test_model1)) /\
  operators (emit test_model1) = first_seen (emitted_ops test_model1) /\
  emitted_ops test_model1 = [et_view; et_view; mul_out; et_view] /\
  operators (emit test_model1) !! 0 = Some et_view /\
  operators (emit test_model1) !! 1 = Some mul_out /\
  op_index <$> instructions (emit test_model1) = [0; 0; 1; 0].
Proof.
  destruct (emit_first_seen test_model1) as (Hfs & Hnd & _).
  split; [vm_compute; reflexivity|]. split; [vm_compute; reflexivity|].
  split; [exact Hnd|]. split; [exact Hfs|].
  repeat split; vm_compute; reflexivity.
Qed.

(** * Further properties of the header

    What follows is read off [from_bytes], [is_valid] and [to_bytes]
    beyond the properties above: how slices behave on short buffers,
    which error wins, and how reading and writing compose. *)

Section Slices.

Local Open Scope nat_scope.

Lemma length_py_slice_le (a b : nat) (l : list byte) :
  length (py_slice a b l) <= b - a.
Proof. unfold py_slice. rewrite length_take. lia. Qed.

Lemma length_py_slice (a b : nat) (l : list byte) :
  b <= length l -> length (py_slice a b l) = b - a.
Proof.
  intros Hb. unfold py_slice. rewrite length_take, length_drop. lia.
Qed.

Lemma py_slice_beyond (a b : nat) (l : list byte) :
  length l <= a -> py_slice a b l = [].
Proof.
  intros Ha. unfold py_slice. rewrite drop_ge by assumption. apply take_nil.
Qed.

Lemma py_slice_adjacent (a b c : nat) (l : list byte) :
  a <= b -> b <= c -> py_slice a b l ++ py_slice b c l = py_slice a c l.
Proof.
  intros Hab Hbc. unfold py_slice.
  replace (drop b l) with (drop (b - a) (drop a l))
    by (rewrite drop_drop; f_equal; lia).
  rewrite take_take_drop. f_equal. lia.
Qed.

Lemma py_slice_all (l : list byte) : py_slice 0 (length l) l = l.
Proof. unfold py_slice. rewrite drop_0. apply take_ge. lia. Qed.

(** A slice of a zero-extended buffer is the slice of the buffer,
    zero-extended. *)
Lemma py_slice_zero_extend (a b k : nat) (l : list byte) :
  exists j, py_slice a b (l ++ replicate k x00)
            = py_slice a b l ++ replicate j x00.
Proof.
  unfold py_slice. rewrite drop_app, take_app, drop_replicate, take_replicate.
  eauto.
Qed.

Lemma int_from_bytes_little_app (bs cs : list byte) :
  int_from_bytes_little (bs ++ cs) =
  (int_from_bytes_little bs
   + 256 ^ Z.of_nat (length bs) * int_from_bytes_little cs)%Z.
Proof.
  induction bs as [|b bs IH]; cbn [app int_from_bytes_little length].
  - change (Z.of_nat 0) with 0%Z. rewrite Z.pow_0_r. lia.
  - rewrite IH, Nat2Z.inj_succ, Z.pow_succ_r by lia. lia.
Qed.

Lemma int_from_bytes_little_zeros (k : nat) :
  int_from_bytes_little (replicate k x00) = 0%Z.
Proof.
  induction k as [|k IH]; [reflexivity|].
  cbn [replicate int_from_bytes_little]. rewrite IH. reflexivity.
Qed.

(** Trailing zero bytes do not change a little-endian value. *)
Lemma int_from_bytes_little_zero_extend (bs : list byte) (k : nat) :
  int_from_bytes_little (bs ++ replicate k x00) = int_from_bytes_little bs.
Proof.
  rewrite int_from_bytes_little_app, int_from_bytes_little_zeros. lia.
Qed.

End Slices.

Local Open Scope Z_scope.

(** The guards of [from_bytes] are tried in order, and each error
    reports what its guard saw: a buffer longer than 30 bytes raises the
    length error with the buffer's length, whatever its content; a
    buffer of at most 30 bytes with a wrong magic raises the magic error
    with the offending slice, whatever its header length; only then is
    the header length decoded and reported. *)
Theorem from_bytes_error_order (data : list byte) :
  ((30 < length data)%nat ->
   from_bytes data = Raise (ValueError_length (length data))) /\
  ((length data <= 30)%nat ->
   py_slice 4 8 data <> [x56; x48; x30; x30] ->
   from_bytes data = Raise (ValueError_magic (py_slice 4 8 data))) /\
  ((length data <= 30)%nat ->
   py_slice 4 8 data = [x56; x48; x30; x30] ->
   int_from_bytes_little (py_slice 8 10 data) <> 30 ->
   from_bytes data =
     Raise (ValueError_header_length
              (int_from_bytes_little (py_slice 8 10 data)))).
Proof.
  unfold from_bytes, EXPECTED_LENGTH. split; [|split].
  - intros Hlen. destruct (Z.ltb_spec 30 (Z.of_nat (length data))); [|lia].
    reflexivity.
  - intros Hlen Hm. destruct (Z.ltb_spec 30 (Z.of_nat (length data))); [lia|].
    change (index MAGIC_IX data) with (py_slice 4 8 data).
    change EXPECTED_MAGIC with [x56; x48; x30; x30].
    now rewrite bool_decide_eq_false_2 by assumption.
  - intros Hlen Hm Hl.
    destruct (Z.ltb_spec 30 (Z.of_nat (length data))); [lia|].
    change (index MAGIC_IX data) with (py_slice 4 8 data).
    change (index HEADER_SIZE_IX data) with (py_slice 8 10 data).
    change EXPECTED_MAGIC with [x56; x48; x30; x30].
    rewrite bool_decide_eq_true_2 by assumption. cbn [negb].
    destruct (Z.eqb_spec (int_from_bytes_little (py_slice 8 10 data)) 30);
      [contradiction | reflexivity].
Qed.

Lemma from_bytes_error_order_witness :
  from_bytes (replicate 31 x56) = Raise (ValueError_length 31) /\
  from_bytes [x00; x00; x00; x00; x56; x48; x30; x31; x1f; x00]
    = Raise (ValueError_magic [x56; x48; x30; x31]) /\
  from_bytes [x00; x00; x00; x00; x56; x48; x30; x30; x1f; x00]
    = Raise (ValueError_header_length 31).
Proof.
  split; [|split].
  - destruct (from_bytes_error_order (replicate 31 x56)) as (H & _ & _).
    apply H. cbn. lia.
  - destruct (from_bytes_error_order
                [x00; x00; x00; x00; x56; x48; x30; x31; x1f; x00])
      as (_ & H & _).
    apply H; [cbn; lia | cbn; discriminate].
  - destruct (from_bytes_error_order
                [x00; x00; x00; x00; x56; x48; x30; x30; x1f; x00])
      as (_ & _ & H).
    apply H; [cbn; lia | reflexivity | cbn; discriminate].
Defined.

(** The first four bytes are never read: two buffers that differ only
    there give the same result, header or error.  The writer fills them
    with zeros; the reader does not ask for that. *)
Theorem from_bytes_ignores_padding (pad pad' rest : list byte) :
  length pad = 4%nat -> length pad' = 4%nat ->
  from_bytes (pad ++ rest) = from_bytes (pad' ++ rest).
Proof.
  intros Hp Hp'.
  destruct pad as [|p0 [|p1 [|p2 [|p3 [|]]]]]; try discriminate Hp.
  destruct pad' as [|q0 [|q1 [|q2 [|q3 [|]]]]]; try discriminate Hp'.
  reflexivity.
Qed.

Lemma from_bytes_ignores_padding_witness :
  from_bytes ([xff; xff; xff; xff] ++
              [x56; x48; x30; x30; x1e; x00; x1e; x00; x00; x00;
               x64; x00; x00; x00; x82; x00; x00; x00;
               x07; x00; x00; x00; x00; x00; x00; x00])
  = Ok (mk 30 100 130 7).
Proof.
  rewrite (from_bytes_ignores_padding [xff; xff; xff; xff]
             [x00; x00; x00; x00]) by reflexivity.
  reflexivity.
Defined.

(** Parsing does not validate: a full 30-byte buffer with the right
    magic and header length whose [flatbuffer_size] bytes are all zero
    is parsed, whatever its other bytes; the header it gives is not
    valid, and [to_bytes] refuses to write it back. *)
Theorem from_bytes_does_not_validate (pad fo_b bo_b bs_b : list byte) :
  length pad = 4%nat -> length fo_b = 4%nat ->
  length bo_b = 4%nat -> length bs_b = 8%nat ->
  exists h,
    from_bytes (pad ++ [x56; x48; x30; x30] ++ [x1e; x00] ++ fo_b
                  ++ [x00; x00; x00; x00] ++ bo_b ++ bs_b) = Ok h /\
    flatbuffer_offset h = int_from_bytes_little fo_b /\
    flatbuffer_size h = 0 /\
    is_valid h = false /\
    to_bytes h = Raise ValueError_invalid.
Proof.
  intros Hp Hfo Hbo Hbs.
  destruct pad as [|p0 [|p1 [|p2 [|p3 [|]]]]]; try discriminate Hp.
  destruct fo_b as [|f0 [|f1 [|f2 [|f3 [|]]]]]; try discriminate Hfo.
  destruct bo_b as [|o0 [|o1 [|o2 [|o3 [|]]]]]; try discriminate Hbo.
  do 8 (destruct bs_b as [|? bs_b]; [discriminate Hbs|]).
  destruct bs_b; [|discriminate Hbs].
  eexists. split; [reflexivity|].
  split; [reflexivity|]. split; [reflexivity|].
  split; [reflexivity|]. apply to_bytes_invalid. reflexivity.
Qed.

Lemma from_bytes_does_not_validate_witness :
  exists h,
    from_bytes ([x00; x00; x00; x00] ++ [x56; x48; x30; x30] ++ [x1e; x00]
                  ++ [x1e; x00; x00; x00] ++ [x00; x00; x00; x00]
                  ++ [x82; x00; x00; x00]
                  ++ [x07; x00; x00; x00; x00; x00; x00; x00]) = Ok h /\
    is_valid h = false.
Proof.
  destruct (from_bytes_does_not_validate [x00; x00; x00; x00]
              [x1e; x00; x00; x00] [x82; x00; x00; x00]
              [x07; x00; x00; x00; x00; x00; x00; x00]
              eq_refl eq_refl eq_refl eq_refl)
    as (h & Hh & _ & _ & Hv & _).
  exists h. split; assumption.
Defined.

Lemma int_from_slice_bound (a b : nat) (data : list byte) :
  0 <= int_from_bytes_little (py_slice a b data) < 256 ^ Z.of_nat (b - a).
Proof.
  pose proof (int_from_bytes_little_range (py_slice a b data)) as [H0 H1].
  split; [assumption|]. eapply Z.lt_le_trans; [exact H1|].
  apply Z.pow_le_mono_r; [lia|]. pose proof (length_py_slice_le a b data). lia.
Qed.

Lemma from_bytes_fits (data : list byte) (h : t) :
  from_bytes data = Ok h -> fits h.
Proof.
  intros Hp. apply from_bytes_inv in Hp as (_ & _ & _ & ->).
  unfold fits, index. cbn [flatbuffer_offset flatbuffer_size bytes_offset
                            bytes_size FLATBUFFER_OFFSET_IX FLATBUFFER_SIZE_IX
                            BYTES_OFFSET_IX BYTES_SIZE_IX fst snd].
  pose proof (int_from_slice_bound 10 14 data).
  pose proof (int_from_slice_bound 14 18 data).
  pose proof (int_from_slice_bound 18 22 data).
  pose proof (int_from_slice_bound 22 30 data).
  change (256 ^ Z.of_nat (14 - 10)) with (2 ^ 32) in *.
  change (256 ^ Z.of_nat (18 - 14)) with (2 ^ 32) in *.
  change (256 ^ Z.of_nat (22 - 18)) with (2 ^ 32) in *.
  change (256 ^ Z.of_nat (30 - 22)) with (2 ^ 64) in *.
  repeat split; lia.
Qed.

(** Every header that [from_bytes] returns has fields that fit the
    widths [to_bytes] writes; so a parsed header that is valid can always
    be written, the result has 30 bytes, and reading it back gives the
    same header, also when the parsed buffer was short or had non-zero
    padding. *)
Theorem parsed_header_can_be_written (data : list byte) (h : t) :
  from_bytes data = Ok h ->
  fits h /\
  (is_valid h = true ->
   exists data', to_bytes h = Ok data' /\ length data' = 30%nat /\
                 from_bytes data' = Ok h).
Proof.
  intros Hp. pose proof (from_bytes_fits _ _ Hp) as Hf.
  split; [assumption|]. intros Hv. exists (layout h).
  split; [now apply to_bytes_ok|].
  split; [apply length_layout | now apply from_bytes_layout].
Qed.

Lemma parsed_header_can_be_written_witness :
  exists data',
    to_bytes (mk 30 100 130 7) = Ok data' /\ length data' = 30%nat.
Proof.
  destruct (parsed_header_can_be_written
    [xff; x00; x00; x00; x56; x48; x30; x30; x1e; x00;
     x1e; x00; x00; x00; x64; x00; x00; x00; x82; x00; x00; x00; x07]
    (mk 30 100 130 7) eq_refl) as [_ Hw].
  destruct (Hw eq_refl) as (data' & Hd & Hl & _).
  exists data'. split; assumption.
Defined.

(** Reading then writing: on a buffer of exactly 30 bytes whose first
    four bytes are zero, if [from_bytes] returns a valid header then
    [to_bytes] of that header is the buffer itself. *)
Theorem to_bytes_from_bytes (data : list byte) (h : t) :
  length data = 30%nat ->
  py_slice 0 4 data = [x00; x00; x00; x00] ->
  from_bytes data = Ok h ->
  is_valid h = true ->
  to_bytes h = Ok data.
Proof.
  intros Hlen Hpad Hp Hv. pose proof (from_bytes_fits _ _ Hp) as Hf.
  rewrite to_bytes_ok by assumption. f_equal.
  apply from_bytes_inv in Hp as (_ & Hm & Hl & ->).
  unfold layout, index in *.
  cbn [flatbuffer_offset flatbuffer_size bytes_offset bytes_size
       MAGIC_IX HEADER_SIZE_IX FLATBUFFER_OFFSET_IX FLATBUFFER_SIZE_IX
       BYTES_OFFSET_IX BYTES_SIZE_IX fst snd] in *.
  rewrite <- Hl, <- Hm, <- Hpad.
  assert (Hdig : forall a b w, (w = b - a)%nat -> (b <= 30)%nat ->
            le_digits w (int_from_bytes_little (py_slice a b data))
            = py_slice a b data).
  { intros a b w -> Hb.
    rewrite <- (le_digits_int_from (py_slice a b data)) at 2.
    now rewrite length_py_slice by lia. }
  rewrite (Hdig 8 10 2)%nat, (Hdig 10 14 4)%nat, (Hdig 14 18 4)%nat,
    (Hdig 18 22 4)%nat, (Hdig 22 30 8)%nat by lia.
  rewrite (py_slice_adjacent 18 22 30), (py_slice_adjacent 14 18 30),
    (py_slice_adjacent 10 14 30), (py_slice_adjacent 8 10 30),
    (py_slice_adjacent 4 8 30), (py_slice_adjacent 0 4 30) by lia.
  rewrite <- Hlen. apply py_slice_all.
Qed.

Lemma to_bytes_from_bytes_witness :
  to_bytes (mk 30 100 130 7) =
    Ok [x00; x00; x00; x00; x56; x48; x30; x30; x1e; x00;
        x1e; x00; x00; x00; x64; x00; x00; x00; x82; x00; x00; x00;
        x07; x00; x00; x00; x00; x00; x00; x00].
Proof.
  apply to_bytes_from_bytes; reflexivity.
Defined.

(** Two headers that [to_bytes] writes to the same bytes are the same
    header. *)
Theorem to_bytes_injective (h1 h2 : t) (data : list byte) :
  to_bytes h1 = Ok data -> to_bytes h2 = Ok data -> h1 = h2.
Proof.
  intros H1 H2.
  apply to_bytes_inv in H1 as (_ & Hf1 & ->).
  apply to_bytes_inv in H2 as (_ & Hf2 & Heq).
  apply from_bytes_layout in Hf1. apply from_bytes_layout in Hf2.
  rewrite Heq in Hf1. congruence.
Qed.

Lemma to_bytes_injective_witness :
  mk (15 + 15) (10 * 10) 130 7 = mk 30 100 130 7.
Proof.
  apply (to_bytes_injective (mk (15 + 15) (10 * 10) 130 7) (mk 30 100 130 7)
           [x00; x00; x00; x00; x56; x48; x30; x30; x1e; x00;
            x1e; x00; x00; x00; x64; x00; x00; x00; x82; x00; x00; x00;
            x07; x00; x00; x00; x00; x00; x00; x00]); reflexivity.
Defined.

(** The ways [to_bytes] can fail.  Validity is checked before anything
    is encoded, so an invalid header raises the [ValueError] even when a
    field would also overflow; any other failure is an [OverflowError]
    on a valid header whose fields do not all fit; the length assertion
    at the end never fails. *)
Theorem to_bytes_failures (h : t) (e : exn) :
  to_bytes h = Raise e ->
  e <> AssertionError /\
  ((e = ValueError_invalid /\ is_valid h = false) \/
   (is_overflow e = true /\ is_valid h = true /\ ~ fits h)).
Proof.
  intros He. destruct (is_valid h) eqn:Hv.
  - assert (Hnf : ~ fits h).
    { intros Hf. rewrite to_bytes_ok in He by assumption. discriminate. }
    destruct (to_bytes_overflow h Hv Hnf) as (e' & He' & Ho).
    assert (e = e') as <- by congruence.
    split; [intros ->; discriminate|]. right. auto.
  - rewrite to_bytes_invalid in He by assumption. injection He as <-.
    split; [discriminate|]. left. auto.
Qed.

Lemma to_bytes_failures_witness :
  ValueError_invalid <> AssertionError /\
  OverflowError_too_big <> AssertionError.
Proof.
  split.
  - apply (to_bytes_failures (mk (2 ^ 40) 0 0 0) ValueError_invalid).
    reflexivity.
  - apply (to_bytes_failures (mk 0 1 (2 ^ 32) 0) OverflowError_too_big).
    reflexivity.
Defined.



(** In a valid header the graph segment
    [flatbuffer_offset, flatbuffer_offset + flatbuffer_size) is not
    empty, ends at or before [bytes_offset], and shares no byte with the
    constant segment [bytes_offset, bytes_offset + bytes_size). *)
Theorem valid_segments_disjoint (h : t) (x : Z) :
  is_valid h = true ->
  flatbuffer_offset h < flatbuffer_offset h + flatbuffer_size h <= bytes_offset h /\
  bytes_offset h <= bytes_offset h + bytes_size h /\
  ~ (flatbuffer_offset h <= x < flatbuffer_offset h + flatbuffer_size h /\
     bytes_offset h <= x < bytes_offset h + bytes_size h).
Proof.
  intros Hv. apply is_valid_iff in Hv. lia.
Qed.

Lemma valid_segments_disjoint_witness :
  ~ (30 <= 129 < 30 + 100 /\ 130 <= 129 < 130 + 7).
Proof.
  apply (valid_segments_disjoint (mk 30 100 130 7) 129). reflexivity.
Defined.

(** A buffer of at most 14 bytes holds no byte of [flatbuffer_size] or
    of the fields after it.  If [from_bytes] accepts it, those fields
    are read as 0, and the header it returns is never valid. *)
Theorem from_bytes_truncated (data : list byte) (h : t) :
  (length data <= 14)%nat ->
  from_bytes data = Ok h ->
  flatbuffer_size h = 0 /\ bytes_offset h = 0 /\ bytes_size h = 0 /\
  is_valid h = false.
Proof.
  intros Hlen Hp. apply from_bytes_inv in Hp as (_ & _ & _ & ->).
  unfold index, is_valid.
  cbn [flatbuffer_offset flatbuffer_size bytes_offset bytes_size
       FLATBUFFER_SIZE_IX BYTES_OFFSET_IX BYTES_SIZE_IX fst snd].
  rewrite (py_slice_beyond 14 18), (py_slice_beyond 18 22),
    (py_slice_beyond 22 30) by lia.
  repeat split.
Qed.

Lemma from_bytes_truncated_witness :
  is_valid (mk 7 0 0 0) = false.
Proof.
  apply (from_bytes_truncated
           [x00; x00; x00; x00; x56; x48; x30; x30; x1e; x00; x07]
           (mk 7 0 0 0)); [cbn; lia | reflexivity].
Defined.

Lemma from_bytes_ok_iff (data : list byte) (h : t) :
  from_bytes data = Ok h <->
  (length data <= 30)%nat /\
  py_slice 4 8 data = EXPECTED_MAGIC /\
  int_from_bytes_little (py_slice 8 10 data) = 30 /\
  h = {| flatbuffer_offset := int_from_bytes_little (py_slice 10 14 data);
         flatbuffer_size := int_from_bytes_little (py_slice 14 18 data);
         bytes_offset := int_from_bytes_little (py_slice 18 22 data);
         bytes_size := int_from_bytes_little (py_slice 22 30 data) |}.
Proof.
  split.
  - apply from_bytes_inv.
  - intros (Hlen & Hm & Hl & ->).
    destruct (from_bytes_accepts data Hlen Hm Hl) as [h' Hh'].
    rewrite Hh'. f_equal. now apply from_bytes_inv in Hh' as (_ & _ & _ & ->).
Qed.

Lemma magic_zero_extend (l : list byte) (j : nat) :
  (length (l ++ replicate j x00) <= 4)%nat ->
  (l ++ replicate j x00 = EXPECTED_MAGIC <-> l = EXPECTED_MAGIC).
Proof.
  intros Hlen. split.
  - destruct j as [|j]; [now rewrite app_nil_r|].
    rewrite replicate_S_end, app_assoc. intros Heq.
    apply (f_equal last) in Heq. rewrite last_snoc in Heq. discriminate.
  - intros ->. rewrite length_app, length_replicate in Hlen.
    cbn in Hlen. assert (j = 0%nat) as -> by lia. reflexivity.
Qed.

(** What the missing bytes of a short buffer are taken to be: for a
    buffer of at most 30 bytes, [from_bytes] returns a header exactly
    when it returns that header on the buffer extended with zero bytes
    to 30. *)
Theorem from_bytes_zero_extends (data : list byte) (h : t) :
  (length data <= 30)%nat ->
  (from_bytes data = Ok h <->
   from_bytes (data ++ replicate (30 - length data) x00) = Ok h).
Proof.
  intros Hlen. set (k := (30 - length data)%nat).
  assert (Hint : forall a b,
            int_from_bytes_little (py_slice a b (data ++ replicate k x00))
            = int_from_bytes_little (py_slice a b data)).
  { intros a b. destruct (py_slice_zero_extend a b k data) as [j ->].
    apply int_from_bytes_little_zero_extend. }
  assert (Hmagic : py_slice 4 8 (data ++ replicate k x00) = EXPECTED_MAGIC
                   <-> py_slice 4 8 data = EXPECTED_MAGIC).
  { pose proof (length_py_slice_le 4 8 (data ++ replicate k x00)) as Hl.
    destruct (py_slice_zero_extend 4 8 k data) as [j Hj]. rewrite Hj in *.
    apply magic_zero_extend. lia. }
  rewrite !from_bytes_ok_iff, !Hint, Hmagic.
  rewrite length_app, length_replicate. subst k.
  split; intros (H1 & H2 & H3 & H4); repeat split; assumption || lia.
Qed.

Lemma from_bytes_zero_extends_witness :
  from_bytes ([x00; x00; x00; x00; x56; x48; x30; x30; x1e; x00; x07]
              ++ replicate 19 x00) = Ok (mk 7 0 0 0).
Proof.
  apply (from_bytes_zero_extends
           [x00; x00; x00; x00; x56; x48; x30; x30; x1e; x00; x07]
           (mk 7 0 0 0)); [cbn; lia | reflexivity].
Defined.

(** [int.to_bytes] and [int.from_bytes], as the header code uses them,
    are inverse to each other at a fixed width: a successful encoding has
    exactly the requested number of bytes, decodes to the encoded value,
    and encoding that decoded value again gives the same bytes. *)
Theorem int_bytes_round_trip (n : Z) (len : nat) (bs : list byte) :
  int_to_bytes_little n len = Ok bs ->
  length bs = len /\
  int_from_bytes_little bs = n /\
  int_to_bytes_little (int_from_bytes_little bs) (length bs) = Ok bs.
Proof.
  intros He. apply int_to_bytes_little_inv in He as [Hn ->].
  rewrite length_le_digits, int_from_le_digits by assumption.
  repeat split. now apply int_to_bytes_little_ok.
Qed.

Lemma int_bytes_round_trip_witness :
  int_from_bytes_little [x82; x01; x00; x00] = 386.
Proof.
  apply (int_bytes_round_trip 386 4 [x82; x01; x00; x00]). reflexivity.
Defined.

(** * The model under test *)

Import TestModel1.

Section Forward.

Local Open Scope nat_scope.

Context {F : Type} (elt_mul : F -> F -> F).

(** [forward] fails exactly when [x] does not hold 30 elements, with the
    error of [x.view(6, 5)]; otherwise it returns a tensor of sizes [30]
    whose elements are the products of the elements of the parameter and
    of [x], position by position.  The three views move no element. *)
Theorem forward_is_flat_product (parameter x : Tensor F) :
  sizes parameter = [5; 6] ->
  (numel (sizes x) = 30 ->
   forward elt_mul parameter x =
     Returns (mkTensor [30]
                (zip_with elt_mul (elements parameter) (elements x)))) /\
  (numel (sizes x) <> 30 ->
   forward elt_mul parameter x = RuntimeError_shape [6; 5] (numel (sizes x))).
Proof.
  intros Hp. unfold forward, view. rewrite Hp. cbn [sizes elements].
  rewrite bool_decide_eq_true_2 by reflexivity.
  change (numel [6; 5]) with 30. split; intros Hx.
  - rewrite bool_decide_eq_true_2 by (symmetry; exact Hx).
    unfold mul_Tensor. cbn [sizes elements].
    rewrite bool_decide_eq_true_2 by reflexivity. reflexivity.
  - rewrite bool_decide_eq_false_2 by (intros Heq; apply Hx; now symmetry).
    reflexivity.
Qed.

End Forward.

Local Open Scope nat_scope.

Lemma forward_is_flat_product_witness :
  forward Nat.mul (mkTensor [5; 6] (seq 1 30)) (mkTensor [5; 6] (replicate 30 2))
  = Returns (mkTensor [30] (zip_with Nat.mul (seq 1 30) (replicate 30 2))) /\
  forward Nat.mul (mkTensor [5; 6] (seq 1 30)) (mkTensor [4; 6] (replicate 24 2))
  = RuntimeError_shape [6; 5] 24.
Proof.
  split.
  - apply (forward_is_flat_product Nat.mul (mkTensor [5; 6] (seq 1 30))
             (mkTensor [5; 6] (replicate 30 2)) eq_refl). reflexivity.
  - apply (forward_is_flat_product Nat.mul (mkTensor [5; 6] (seq 1 30))
             (mkTensor [4; 6] (replicate 24 2)) eq_refl). cbn. lia.
Defined.

Local Open Scope Z_scope.

(** Validity looks at distances only: moving both segments of a valid
    header by the same amount, and then moving the constant segment
    further away by any padding, leaves the header valid. *)
Theorem is_valid_relocate (h : t) (shift padding : Z) :
  is_valid h = true ->
  0 <= padding ->
  is_valid {| flatbuffer_offset := flatbuffer_offset h + shift;
              flatbuffer_size := flatbuffer_size h;
              bytes_offset := bytes_offset h + shift + padding;
              bytes_size := bytes_size h |} = true.
Proof.
  intros Hv Hp. apply is_valid_iff in Hv. apply is_valid_iff. cbn. lia.
Qed.

Lemma is_valid_relocate_witness :
  is_valid (mk (30 + 1000) 100 (130 + 1000 + 16) 7) = true.
Proof.
  apply (is_valid_relocate (mk 30 100 130 7) 1000 16); [reflexivity | lia].
Defined.
